(** * Tic-tac-toe: game state, outcome evaluation and minimax search

    A shallow embedding of [game.py].  Python integers are [Z]; Python lists
    are Rocq lists indexed the Python way (negative indices count from the
    end, anything else out of range raises [IndexError]); objects that the
    program mutates ([GameContext], [MinimaxBot]) live in an explicit store
    that every method threads through. *)

From Stdlib Require Import ZArith List Bool Lia Permutation.
From stdpp Require Import base list.
Import ListNotations.
Open Scope Z_scope.

(** ** Python sequences *)

(** [range(n)] for a non-negative literal [n]. *)
Definition range (n : nat) : list Z := map Z.of_nat (seq 0 n).

(** Position designated by the Python index [i] in a sequence of length [n]:
    [0 .. n-1] count from the front, [-n .. -1] from the back; every other
    index is an [IndexError] ([None]). *)
Definition py_index (n : nat) (i : Z) : option nat :=
  if (0 <=? i) && (i <? Z.of_nat n) then Some (Z.to_nat i)
  else if (- Z.of_nat n <=? i) && (i <? 0) then Some (Z.to_nat (Z.of_nat n + i))
  else None.

(** [l[i]] *)
Definition py_getitem {A} (l : list A) (i : Z) : option A :=
  match py_index (length l) i with
  | Some k => l !! k
  | None => None
  end.

(** [l[i] = v] *)
Definition py_setitem {A} (l : list A) (i : Z) (v : A) : option (list A) :=
  match py_index (length l) i with
  | Some k => Some (<[k := v]> l)
  | None => None
  end.

(** [zip( *rows)]: the columns of [rows], cut at the shortest row. *)
Fixpoint zip_star {A} (rows : list (list A)) : list (list A) :=
  match rows with
  | [] => []
  | [r] => map (fun x => [x]) r
  | r :: rest => zip_with cons r (zip_star rest)
  end.

(** [max(pairs, key=itemgetter(0))] and [min(pairs, key=itemgetter(0))]:
    the running best is replaced only by a strictly better key, so the first
    extremal pair wins a tie; an empty sequence is a [ValueError] ([None]). *)
Fixpoint max_from {A} (best : Z * A) (rest : list (Z * A)) : Z * A :=
  match rest with
  | [] => best
  | x :: rest' => if fst best <? fst x then max_from x rest' else max_from best rest'
  end.

Fixpoint min_from {A} (best : Z * A) (rest : list (Z * A)) : Z * A :=
  match rest with
  | [] => best
  | x :: rest' => if fst x <? fst best then min_from x rest' else min_from best rest'
  end.

Definition py_max {A} (pairs : list (Z * A)) : option (Z * A) :=
  match pairs with
  | [] => None
  | x :: rest => Some (max_from x rest)
  end.

Definition py_min {A} (pairs : list (Z * A)) : option (Z * A) :=
  match pairs with
  | [] => None
  | x :: rest => Some (min_from x rest)
  end.

(** ** Players, cells, boards *)

Module Player.
(** [class Player(IntEnum)]: [X = 0], [O = 1]. *)
Inductive t := X | O.

Definition value (p : t) : Z :=
  match p with X => 0 | O => 1 end.

(** The constructor call [Player(n)]; [None] is Python's [ValueError]. *)
Definition of_int (n : Z) : option t :=
  if n =? 0 then Some X else if n =? 1 then Some O else None.

Definition eqb (p q : t) : bool :=
  match p, q with
  | X, X | O, O => true
  | _, _ => false
  end.

(** [Player(1 - p)] *)
Definition other (p : t) : t :=
  match p with X => O | O => X end.
End Player.

Abbreviation Player := Player.t.

(** A board cell: [None] when empty, otherwise the mark placed there. *)
Abbreviation Cell := (option Player).
Abbreviation Board := (list (list Cell)).

(** [==] on [Optional[Player]] *)
Definition cell_eqb (a b : Cell) : bool :=
  match a, b with
  | None, None => true
  | Some p, Some q => Player.eqb p q
  | _, _ => false
  end.

(** [filled_equal(x)]: every item is a mark and equals [x[0]]. *)
Fixpoint filled_equal_loop (x0 : Cell) (items : list Cell) : bool :=
  match items with
  | [] => true
  | item :: rest =>
      match item with
      | None => false
      | Some _ => if cell_eqb item x0 then filled_equal_loop x0 rest else false
      end
  end.

Definition filled_equal (x : list Cell) : bool :=
  filled_equal_loop (hd None x) x.

(** ** GameContext *)

Record GameContext := mkGameContext {
  moves : Z;
  board : Board;
  turn : Player
}.

(** [GameContext.__init__]: three fresh rows of three empty cells, [O] to
    move. *)
Definition GameContext_init : GameContext :=
  {| moves := 0;
     board := replicate 3 (replicate 3 None);
     turn := Player.O |}.

(** Shape of every board the program builds: [__init__] makes three rows of
    three cells and no method changes a length. *)
Definition board_3x3 (b : Board) : Prop :=
  length b = 3%nat /\ Forall (fun row => length row = 3%nat) b.

(** [board[i][j]]; [None] where Python raises [IndexError]. *)
Definition cell_at (b : Board) (i j : Z) : option Cell :=
  match py_getitem b i with
  | Some row => py_getitem row j
  | None => None
  end.

Definition is_empty_at (b : Board) (ij : Z * Z) : bool :=
  match cell_at b (fst ij) (snd ij) with
  | Some None => true
  | _ => false
  end.

(** The coordinates [(i, j) for i in range(3) for j in range(3)]. *)
Definition coordinates : list (Z * Z) :=
  flat_map (fun i => map (fun j => (i, j)) (range 3)) (range 3).

(** [possible_moves]: the empty cells, row by row. *)
Definition possible_moves (self : GameContext) : list (Z * Z) :=
  List.filter (is_empty_at (board self)) coordinates.

(** Python exceptions the modelled code can raise, and two outcomes that belong
    to the model only: [OutOfFuel], the recursion bound of [minimax] below was
    reached, and [Dangling], a reference that names no object in the store
    (Python has none). *)
Inductive exn :=
  IndexError | ValueError | AttributeError | RecursionError | OutOfFuel | Dangling.

(** Outcome of a call: a value or a raised exception. *)
Inductive Res (A : Type) :=
| Ok (a : A)
| Raise (e : exn).
Arguments Ok {A} a.
Arguments Raise {A} e.

(** [update(row, col)] as a transformer of the receiver.  The counter is
    bumped first, so the context returned next to an [IndexError] already
    carries the new [moves].  The three rows are distinct list objects, so
    writing into [board[row]] changes that row only. *)
Definition update (row col : Z) (self : GameContext) : Res unit * GameContext :=
  let self1 := {| moves := moves self + 1; board := board self; turn := turn self |} in
  match py_index (length (board self1)) row with
  | None => (Raise IndexError, self1)
  | Some k =>
      match board self1 !! k with
      | None => (Raise IndexError, self1)
      | Some r =>
          match py_setitem r col (Some (turn self1)) with
          | None => (Raise IndexError, self1)
          | Some r' =>
              let self2 := {| moves := moves self1;
                              board := <[k := r']> (board self1);
                              turn := turn self1 |} in
              (Ok tt, {| moves := moves self2;
                         board := board self2;
                         turn := Player.other (turn self2) |})
          end
      end
  end.

(** The first list of [ls] that [filled_equal] accepts: the [for] loops of
    [is_game_over] return at the first hit. *)
Fixpoint first_filled (ls : list (list Cell)) : option (list Cell) :=
  match ls with
  | [] => None
  | l :: rest => if filled_equal l then Some l else first_filled rest
  end.

Definition cell_or_none (b : Board) (i j : Z) : Cell :=
  match cell_at b i j with
  | Some c => c
  | None => None
  end.

Definition diag1 (b : Board) : list Cell :=
  map (fun i => cell_or_none b i i) (range 3).

Definition diag2 (b : Board) : list Cell :=
  map (fun i => cell_or_none b (2 - i) i) (range 3).

(** [is_game_over]: rows, then columns, then the two diagonals, then the
    move counter. *)
Definition is_game_over (self : GameContext) : bool * option Player :=
  match first_filled (board self) with
  | Some row => (true, hd None row)
  | None =>
      let cols := zip_star (board self) in
      match first_filled cols with
      | Some col => (true, hd None col)
      | None =>
          if filled_equal (diag1 (board self)) then (true, hd None (diag1 (board self)))
          else if filled_equal (diag2 (board self)) then (true, hd None (diag2 (board self)))
          else if moves self =? 9 then (true, None)
          else (false, None)
      end
  end.

Abbreviation X_ := (Some Player.X).
Abbreviation O_ := (Some Player.O).
Notation "'__'" := (@None Player).

(** ** The object store

    [GameContext] objects are referred to by their position in [ctxs];
    [deepcopy] appends a fresh object.  The single [MinimaxBot] of a game is
    [bot]; its attribute [move] is [None] until [minimax] assigns it. *)

Abbreviation loc := nat.

Record MinimaxBot := mkMinimaxBot {
  player : Player;
  max_depth : Z;
  move : option (Z * Z)
}.

(** [MinimaxBot.__init__(p, max_depth)] *)
Definition MinimaxBot_init (p : Player) (d : Z) : MinimaxBot :=
  {| player := p; max_depth := d; move := None |}.

Record World := mkWorld {
  ctxs : list GameContext;
  bot : MinimaxBot
}.

Definition M (A : Type) : Type := World -> Res A * World.

Definition ret {A} (a : A) : M A := fun w => (Ok a, w).

Definition raise {A} (e : exn) : M A := fun w => (Raise e, w).

Definition bind {A B} (c : M A) (k : A -> M B) : M B :=
  fun w =>
    match c w with
    | (Ok a, w') => k a w'
    | (Raise e, w') => (Raise e, w')
    end.

Notation "'let*' x ':=' c 'in' k" := (bind c (fun x => k))
  (at level 10, x pattern, c at level 100, k at level 200).

(** The current state of the object at [l]. *)
Definition read (l : loc) : M GameContext :=
  fun w =>
    match ctxs w !! l with
    | Some c => (Ok c, w)
    | None => (Raise Dangling, w)
    end.

(** [deepcopy(l)]: a new object with the same contents. *)
Definition deepcopy (l : loc) : M loc :=
  fun w =>
    match ctxs w !! l with
    | Some c => (Ok (length (ctxs w)), {| ctxs := ctxs w ++ [c]; bot := bot w |})
    | None => (Raise Dangling, w)
    end.

(** The method call [l.update(row, col)]: the object at [l] is changed in
    place and the call evaluates to Python's [None]. *)
Definition call_update (l : loc) (row col : Z) : M unit :=
  fun w =>
    match ctxs w !! l with
    | Some c =>
        let (r, c') := update row col c in
        (r, {| ctxs := <[l := c']> (ctxs w); bot := bot w |})
    | None => (Raise Dangling, w)
    end.

Definition get_bot : M MinimaxBot := fun w => (Ok (bot w), w).

(** [self.move = m] *)
Definition set_move (m : Z * Z) : M unit :=
  fun w =>
    (Ok tt, {| ctxs := ctxs w;
               bot := {| player := player (bot w);
                         max_depth := max_depth (bot w);
                         move := Some m |} |}).

(** A [for] loop that appends one result per item. *)
Fixpoint for_each {A B} (body : A -> M B) (items : list A) : M (list B) :=
  match items with
  | [] => ret []
  | x :: rest =>
      let* y := body x in
      let* ys := for_each body rest in
      ret (y :: ys)
  end.

(** ** MinimaxBot *)

(** The [if over:] block of [minimax]: the score returned, or [None] when no
    branch of the [if]/[elif] chain fires and control falls through. *)
Definition terminal_score (self_player : Player) (over : bool) (winner : option Player)
  : option Z :=
  if over then
    if cell_eqb winner (Some self_player) then Some 10
    else if cell_eqb winner (Some (Player.other self_player)) then Some (-10)
    else if cell_eqb winner None then Some 0
    else None
  else None.

(** [minimax(curr_ctx, depth)].  [fuel] bounds the nesting of recursive
    calls.  After the loop the name [move] is bound to the last item of
    [moves]; the [max] branch rebinds it, the [min] branch does not. *)
Fixpoint minimax (fuel : nat) (curr_ctx : loc) (depth : Z) : M Z :=
  match fuel with
  | 0%nat => raise OutOfFuel
  | S fuel' =>
      let* ctx := read curr_ctx in
      let* self := get_bot in
      let (over, winner) := is_game_over ctx in
      match terminal_score (player self) over winner with
      | Some score => ret score
      | None =>
          let* ctx := read curr_ctx in
          let moves := possible_moves ctx in
          let* scores :=
            for_each (fun mv : Z * Z =>
                        let* new_ctx := deepcopy curr_ctx in
                        let* _ := call_update new_ctx (fst mv) (snd mv) in
                        minimax fuel' new_ctx (depth - 1)) moves in
          let* ctx := read curr_ctx in
          let* self := get_bot in
          let* score_move :=
            (if Player.eqb (turn ctx) (player self) then
               match py_max (combine scores moves) with
               | Some (score, mv) => ret (score, Some mv)
               | None => raise ValueError
               end
             else
               match py_min (combine scores moves) with
               | Some (score, _) => ret (score, last moves)
               | None => raise ValueError
               end) in
          let* self := get_bot in
          let* _ :=
            (if depth =? max_depth self then
               match snd score_move with
               | Some mv => set_move mv
               | None => ret tt
               end
             else ret tt) in
          ret (fst score_move)
      end
  end.

(** [predict_move(curr_ctx)]: reading an attribute that was never assigned
    is an [AttributeError]. *)
Definition predict_move (fuel : nat) (curr_ctx : loc) : M (Z * Z) :=
  let* self := get_bot in
  let* _ := minimax fuel curr_ctx (max_depth self) in
  let* self := get_bot in
  match move self with
  | Some mv => ret mv
  | None => raise AttributeError
  end.

(** ** Application: the game controller

    Window, canvas and label calls change only what is drawn and are left
    out; the draws of [randint] and the cell a click lands on are inputs. *)

Record Application := mkApplication {
  world : World;
  ctx : loc;
  user_player : Player;
  accept_user_input : bool
}.

(** [reset_game], run over the store [old].  [rand_player] is the draw of
    [randint(0, 1)]; [rand_row] and [rand_col] are the draws of
    [randint(0, 2)], consulted only when the user plays [X]. *)
Definition reset_game (rand_player rand_row rand_col : Z) (old : list GameContext)
  : Res Application :=
  let l := length old in
  let store := old ++ [GameContext_init] in
  match Player.of_int rand_player with
  | None => Raise ValueError
  | Some user =>
      let b := MinimaxBot_init (Player.other user) 8 in
      if Player.eqb user Player.X then
        match call_update l rand_row rand_col {| ctxs := store; bot := b |} with
        | (Ok _, w) =>
            Ok {| world := w; ctx := l; user_player := user; accept_user_input := true |}
        | (Raise e, _) => Raise e
        end
      else
        Ok {| world := {| ctxs := store; bot := b |};
              ctx := l; user_player := user; accept_user_input := true |}
  end.

(** [x in range(3)] *)
Definition in_range3 (x : Z) : bool := (0 <=? x) && (x <? 3).

(** The part of [mouse_callback] that runs once a click is accepted; its
    value is the new [accept_user_input]: cleared when the game is over,
    otherwise left set, as it was when the click was accepted. *)
Definition play_round (fuel : nat) (l : loc) (row col : Z) : M bool :=
  let* _ := call_update l row col in
  let* c := read l in
  if fst (is_game_over c) then ret false
  else
    let* mv := predict_move fuel l in
    let* _ := call_update l (fst mv) (snd mv) in
    let* c := read l in
    if fst (is_game_over c) then ret false else ret true.

(** [mouse_callback(event)] for a click that lands on cell [(row, col)]. *)
Definition mouse_callback (fuel : nat) (row col : Z) (app : Application)
  : Res unit * Application :=
  if negb (in_range3 row) || negb (in_range3 col) then (Ok tt, app)
  else
    match ctxs (world app) !! ctx app with
    | None => (Raise Dangling, app)
    | Some c =>
        if accept_user_input app && is_empty_at (board c) (row, col) then
          match play_round fuel (ctx app) row col (world app) with
          | (Ok accept, w) =>
              (Ok tt, {| world := w; ctx := ctx app; user_player := user_player app;
                         accept_user_input := accept |})
          | (Raise e, w) =>
              (Raise e, {| world := w; ctx := ctx app; user_player := user_player app;
                           accept_user_input := accept_user_input app |})
          end
        else (Ok tt, app)
    end.

(** ** Notions the specification speaks of *)

Definition is_mark (c : Cell) : bool :=
  match c with Some _ => true | None => false end.

(** Number of non-empty cells. *)
Definition occupied (b : Board) : Z :=
  Z.of_nat (length (List.filter is_mark (concat b))).

(** Number of empty cells. *)
Definition empty_cells (b : Board) : nat :=
  length (List.filter (fun c => negb (is_mark c)) (concat b)).

(** A context as the program builds them: a 3x3 board whose move counter
    counts its marks. *)
Definition consistent (s : GameContext) : Prop :=
  board_3x3 (board s) /\ moves s = occupied (board s).

(** The eight lines: three rows, three columns, two diagonals, in the order
    [is_game_over] visits them. *)
Definition rows3 : list (list (Z * Z)) :=
  map (fun i => map (fun j => (i, j)) (range 3)) (range 3).

Definition cols3 : list (list (Z * Z)) :=
  map (fun j => map (fun i => (i, j)) (range 3)) (range 3).

Definition diags : list (list (Z * Z)) :=
  [ map (fun i => (i, i)) (range 3); map (fun i => (2 - i, i)) (range 3) ].

Definition all_lines : list (list (Z * Z)) := rows3 ++ cols3 ++ diags.

(** The line [line] is filled with three marks of player [p]. *)
Definition complete_for (b : Board) (p : Player) (line : list (Z * Z)) : Prop :=
  Forall (fun ij => cell_at b (fst ij) (snd ij) = Some (Some p)) line.

Definition complete_forb (b : Board) (p : Player) (line : list (Z * Z)) : bool :=
  forallb (fun ij => match cell_at b (fst ij) (snd ij) with
                     | Some (Some q) => Player.eqb q p
                     | _ => false
                     end) line.

Definition completeb (b : Board) (line : list (Z * Z)) : bool :=
  complete_forb b Player.X line || complete_forb b Player.O line.

(** The lines of [b] that are complete. *)
Definition complete_lines (b : Board) : list (list (Z * Z)) :=
  List.filter (completeb b) all_lines.

(** The contents of a line. *)
Definition line_cells (b : Board) (line : list (Z * Z)) : list Cell :=
  map (fun ij => cell_or_none b (fst ij) (snd ij)) line.

(** [is_game_over] with its line checks made in the order [order]. *)
Definition is_game_over_in (order : list (list (Z * Z))) (self : GameContext)
  : bool * option Player :=
  match first_filled (map (line_cells (board self)) order) with
  | Some l => (true, hd None l)
  | None => if moves self =? 9 then (true, None) else (false, None)
  end.

(** States reached from the empty board by moves on empty cells. *)
Inductive reachable : GameContext -> Prop :=
| reachable_init : reachable GameContext_init
| reachable_move s row col s' :
    reachable s ->
    In (row, col) (possible_moves s) ->
    update row col s = (Ok tt, s') ->
    reachable s'.

(** The same, with no move made once the game is over. *)
Inductive reachable_play : GameContext -> Prop :=
| reachable_play_init : reachable_play GameContext_init
| reachable_play_move s row col s' :
    reachable_play s ->
    fst (is_game_over s) = false ->
    In (row, col) (possible_moves s) ->
    update row col s = (Ok tt, s') ->
    reachable_play s'.

(** The state [update] leaves behind. *)
Definition after_move (s : GameContext) (mv : Z * Z) : GameContext :=
  snd (update (fst mv) (snd mv) s).

Definition maximum (l : list Z) : Z :=
  match l with
  | [] => 0
  | x :: rest => fold_left Z.max rest x
  end.

Definition minimum (l : list Z) : Z :=
  match l with
  | [] => 0
  | x :: rest => fold_left Z.min rest x
  end.

(** The minimax score as the specification words it: at a terminal node
    [+10] if [forPlayer] won, [-10] if the opponent won, [0] on a draw;
    elsewhere the maximum of the children's scores when it is [forPlayer]'s
    turn and the minimum otherwise.  [plies] is the number of moves still to
    explore; a consistent state with no empty cell is terminal, so the
    [0] for exhausted [plies] is never used from [score]. *)
Fixpoint score_within (plies : nat) (forPlayer : Player) (s : GameContext) : Z :=
  match is_game_over s with
  | (true, Some w) => if Player.eqb w forPlayer then 10 else -10
  | (true, None) => 0
  | (false, _) =>
      match plies with
      | 0%nat => 0
      | S plies' =>
          let children :=
            map (fun mv => score_within plies' forPlayer (after_move s mv))
                (possible_moves s) in
          if Player.eqb (turn s) forPlayer then maximum children else minimum children
      end
  end.

Definition score (forPlayer : Player) (s : GameContext) : Z :=
  score_within (empty_cells (board s)) forPlayer s.

(** [m] is the first item of [l] at which [f] is maximal. *)
Definition first_maximal {A} (f : A -> Z) (l : list A) (m : A) : Prop :=
  exists pre post,
    l = pre ++ m :: post /\
    Forall (fun x => f x < f m) pre /\
    Forall (fun x => f x <= f m) post.

Definition mark_count (c : Cell) : Z := if is_mark c then 1 else 0.

Definition move_eqb (a b : Z * Z) : bool :=
  (fst a =? fst b) && (snd a =? snd b).

(** Play the moves [mvs] from [s] the way the controller lets a game run:
    each on an empty cell, none once the game is over.  [None] when a move
    is refused. *)
Fixpoint run_game (mvs : list (Z * Z)) (s : GameContext) : option GameContext :=
  match mvs with
  | [] => Some s
  | mv :: rest =>
      if negb (fst (is_game_over s)) && existsb (move_eqb mv) (possible_moves s) then
        match update (fst mv) (snd mv) s with
        | (Ok _, s') => run_game rest s'
        | (Raise _, _) => None
        end
      else None
  end.

(** ** Notions used to reason about store-passing code *)

(** [c], run in [w], ends in an outcome and a store that satisfy [Q]. *)
Definition wp {A} (c : M A) (Q : Res A -> World -> Prop) (w : World) : Prop :=
  Q (fst (c w)) (snd (c w)).

(** [w'] holds every object of [w] unchanged, possibly followed by new
    ones, and the same bot but for its [move]. *)
Definition extends (w w' : World) : Prop :=
  (exists ext, ctxs w' = ctxs w ++ ext) /\
  player (bot w') = player (bot w) /\
  max_depth (bot w') = max_depth (bot w).

(** [extends], and [move] is kept too when [d] is below [max_depth]. *)
Definition grows (d : Z) (w w' : World) : Prop :=
  extends w w' /\ (d < max_depth (bot w) -> move (bot w') = move (bot w)).

(** ** RandomBot *)

(** [RandomBot.predict_move(ctx)].  [draws] are the successive results of
    [randint(0, 2)]; every call takes two of them and retries, by a nested
    call, when the cell they name holds a mark.  [stack] is the number of
    nested calls of [predict_move] the interpreter's recursion limit still
    allows (1000 frames by default, less those in use): a call made with
    none left raises [RecursionError].  A call that finds no draw left
    stands for a recursion that has not ended within the draws given
    ([OutOfFuel]). *)
Fixpoint RandomBot_predict_move (stack : nat) (draws : list Z) (ctx : GameContext)
  : Res (Z * Z) :=
  match stack with
  | 0%nat => Raise RecursionError
  | S stack' =>
      match draws with
      | row :: col :: rest =>
          match cell_at (board ctx) row col with
          | None => Raise IndexError
          | Some None => Ok (row, col)
          | Some (Some _) => RandomBot_predict_move stack' rest ctx
          end
      | _ => Raise OutOfFuel
      end
  end.

(** ** Further notions used in the properties *)

(** The draws that name the cells [cells], in order. *)
Definition draws_of (cells : list (Z * Z)) : list Z :=
  flat_map (fun ij => [fst ij; snd ij]) cells.

Definition mark_is (p : Player) (c : Cell) : Z :=
  if cell_eqb c (Some p) then 1 else 0.

(** Number of cells that hold the mark of [p]. *)
Definition count_mark (p : Player) (b : Board) : Z :=
  fold_right Z.add 0 (map (mark_is p) (concat b)).

(** The players have moved in turn, [O] first: at most nine moves, [O] to
    move exactly when [moves] is even, one [O] on the board for every two
    moves begun and one [X] for every two moves completed. *)
Definition in_turn (s : GameContext) : Prop :=
  0 <= moves s <= 9 /\
  turn s = (if Z.even (moves s) then Player.O else Player.X) /\
  count_mark Player.O (board s) = (moves s + 1) / 2 /\
  count_mark Player.X (board s) = moves s / 2.

(** The state of an application during a game: its context is a state of
    play, the bot plays the mark the human does not, input is accepted
    exactly while the game is not over and then it is the human's turn, and
    the position is not lost for the bot. *)
Definition in_play (app : Application) : Prop :=
  exists s,
    ctxs (world app) !! ctx app = Some s /\
    reachable_play s /\
    player (bot (world app)) = Player.other (user_player app) /\
    0 <= score (player (bot (world app))) s /\
    (accept_user_input app = true ->
     fst (is_game_over s) = false /\ turn s = user_player app) /\
    (accept_user_input app = false -> fst (is_game_over s) = true).

(** The draws of [reset_game] are results of [randint(0, 1)] and
    [randint(0, 2)]. *)
Definition draws_in_range (rand_player rand_row rand_col : Z) : Prop :=
  0 <= rand_player <= 1 /\ 0 <= rand_row <= 2 /\ 0 <= rand_col <= 2.

(** The applications a session can be in: the one [reset_game] builds at
    start-up, and those reached from it by clicks and resets.  [fuel]
    bounds the recursion of the bot's search. *)
Inductive session (fuel : nat) : Application -> Prop :=
| session_start rand_player rand_row rand_col app :
    draws_in_range rand_player rand_row rand_col ->
    reset_game rand_player rand_row rand_col [] = Ok app ->
    session fuel app
| session_click app row col :
    session fuel app ->
    session fuel (snd (mouse_callback fuel row col app))
| session_reset app rand_player rand_row rand_col app' :
    session fuel app ->
    draws_in_range rand_player rand_row rand_col ->
    reset_game rand_player rand_row rand_col (ctxs (world app)) = Ok app' ->
    session fuel app'.

(** * Properties *)

(** [Player.other] is the constructor call [Player(1 - p)]. *)
Lemma other_is_one_minus (p : Player) :
  Player.of_int (1 - Player.value p) = Some (Player.other p).
Proof. destruct p; reflexivity. Qed.

(** ** The model at work *)

Example possible_moves_init : possible_moves GameContext_init = coordinates.
Proof. reflexivity. Qed.

Example update_init_center :
  update 1 1 GameContext_init =
  (Ok tt, {| moves := 1; board := [[__;__;__];[__;O_;__];[__;__;__]]; turn := Player.X |}).
Proof. reflexivity. Qed.

(** A negative index counts from the end: [update(-1, -1)] writes the last
    cell. *)
Example update_negative_index :
  update (-1) (-1) GameContext_init =
  (Ok tt, {| moves := 1; board := [[__;__;__];[__;__;__];[__;__;O_]]; turn := Player.X |}).
Proof. reflexivity. Qed.

(** Past the board the assignment raises [IndexError], after [moves] was
    incremented. *)
Example update_out_of_range :
  update 3 0 GameContext_init =
  (Raise IndexError,
   {| moves := 1; board := [[__;__;__];[__;__;__];[__;__;__]]; turn := Player.O |}).
Proof. reflexivity. Qed.

Example is_game_over_column :
  is_game_over {| moves := 5; board := [[X_;O_;__];[X_;O_;__];[X_;__;__]]; turn := Player.O |}
  = (true, X_).
Proof. reflexivity. Qed.

Example predict_move_first_winning_move :
  fst (predict_move 10 0%nat
         {| ctxs := [ {| moves := 4; board := [[X_;X_;__];[O_;O_;__];[__;__;__]];
                         turn := Player.O |} ];
            bot := MinimaxBot_init Player.O 8 |})
  = Ok (0, 2).
Proof. vm_compute. reflexivity. Qed.

(** A click on [(2, 0)]: the human's [X] is placed, the bot answers with
    [(2, 2)], which completes its diagonal, and input is frozen. *)
Example mouse_callback_round :
  let app := {| world := {| ctxs := [ {| moves := 5;
                                         board := [[O_;X_;O_];[X_;O_;__];[__;__;__]];
                                         turn := Player.X |} ];
                            bot := MinimaxBot_init Player.O 8 |};
                ctx := 0%nat; user_player := Player.X; accept_user_input := true |} in
  let app' := snd (mouse_callback 10 2 0 app) in
  fst (mouse_callback 10 2 0 app) = Ok tt /\
  ctxs (world app') !! 0%nat
  = Some {| moves := 7; board := [[O_;X_;O_];[X_;O_;__];[X_;__;O_]];
            turn := Player.X |} /\
  move (bot (world app')) = Some (2, 2) /\
  accept_user_input app' = false.
Proof. vm_compute. repeat split. Qed.

(** ** Boards of the program's shape *)

Lemma board_3x3_cells (b : Board) :
  board_3x3 b ->
  exists a0 a1 a2 b0 b1 b2 c0 c1 c2,
    b = [[a0; a1; a2]; [b0; b1; b2]; [c0; c1; c2]].
Proof.
  intros [Hlen Hrows].
  destruct b as [|r0 [|r1 [|r2 [|]]]]; try discriminate.
  inversion Hrows as [|? ? H0 Hr1]; subst.
  inversion Hr1 as [|? ? H1 Hr2]; subst.
  inversion Hr2 as [|? ? H2 _]; subst.
  destruct r0 as [|a0 [|a1 [|a2 [|]]]]; try discriminate.
  destruct r1 as [|b0 [|b1 [|b2 [|]]]]; try discriminate.
  destruct r2 as [|c0 [|c1 [|c2 [|]]]]; try discriminate.
  repeat eexists.
Qed.

Lemma cells_board_3x3 (a0 a1 a2 b0 b1 b2 c0 c1 c2 : Cell) :
  board_3x3 [[a0; a1; a2]; [b0; b1; b2]; [c0; c1; c2]].
Proof. split; [reflexivity | repeat constructor]. Qed.

(** Replace the board of a context by its nine cells. *)
Ltac cells s H :=
  let b := fresh "b" in
  destruct s as [? b ?]; cbn [board moves turn] in *;
  destruct (board_3x3_cells b H)
    as (?a0 & ?a1 & ?a2 & ?b0 & ?b1 & ?b2 & ?c0 & ?c1 & ?c2 & ->).

Lemma occupied_cells (a0 a1 a2 b0 b1 b2 c0 c1 c2 : Cell) :
  occupied [[a0; a1; a2]; [b0; b1; b2]; [c0; c1; c2]] =
  mark_count a0 + mark_count a1 + mark_count a2 +
  mark_count b0 + mark_count b1 + mark_count b2 +
  mark_count c0 + mark_count c1 + mark_count c2.
Proof.
  destruct a0, a1, a2, b0, b1, b2, c0, c1, c2; reflexivity.
Qed.

Lemma empty_cells_occupied (b : Board) :
  board_3x3 b -> Z.of_nat (empty_cells b) = 9 - occupied b.
Proof.
  intros H.
  destruct (board_3x3_cells b H)
    as (a0 & a1 & a2 & b0 & b1 & b2 & c0 & c1 & c2 & ->).
  destruct a0, a1, a2, b0, b1, b2, c0, c1, c2; reflexivity.
Qed.

(** A legal move names one of the nine cells, and that cell is empty. *)
Lemma possible_moves_cases (s : GameContext) (row col : Z) :
  In (row, col) (possible_moves s) ->
  In (row, col) coordinates /\ cell_at (board s) row col = Some None.
Proof.
  unfold possible_moves. rewrite filter_In. intros [Hin He]. split; [exact Hin|].
  unfold is_empty_at in He; cbn [fst snd] in He.
  revert He. destruct (cell_at (board s) row col) as [[p|]|];
    intros He; first [reflexivity | discriminate He].
Qed.

Lemma possible_moves_complete (s : GameContext) (row col : Z) :
  In (row, col) coordinates -> cell_at (board s) row col = Some None ->
  In (row, col) (possible_moves s).
Proof.
  intros Hin He. unfold possible_moves. rewrite filter_In. split; [exact Hin|].
  unfold is_empty_at; cbn [fst snd]. now rewrite He.
Qed.

Lemma coordinates_eq :
  coordinates = [(0,0);(0,1);(0,2);(1,0);(1,1);(1,2);(2,0);(2,1);(2,2)].
Proof. reflexivity. Qed.

(** Case analysis on a legal move of a nine-cell board: one goal per cell,
    with that cell known to be empty. *)
Ltac move_cases Hin :=
  apply possible_moves_cases in Hin;
  let Hc := fresh "Hc" in
  let He := fresh "He" in
  destruct Hin as [Hc He];
  rewrite coordinates_eq in Hc; cbn [In] in Hc;
  repeat (destruct Hc as [Hc|Hc]; [inversion Hc; subst; clear Hc|]);
  [ .. | contradiction ];
  cbv in He; inversion He; subst; clear He.

(** What [update] does on a legal move. *)
Lemma update_legal (s : GameContext) (row col : Z) :
  board_3x3 (board s) ->
  In (row, col) (possible_moves s) ->
  exists s',
    update row col s = (Ok tt, s') /\
    board_3x3 (board s') /\
    moves s' = moves s + 1 /\
    turn s' = Player.other (turn s) /\
    occupied (board s') = occupied (board s) + 1 /\
    cell_at (board s') row col = Some (Some (turn s)) /\
    (forall i j, In (i, j) coordinates -> (i, j) <> (row, col) ->
                 cell_at (board s') i j = cell_at (board s) i j).
Proof.
  intros H3 Hin. cells s H3. move_cases Hin;
    (eexists; split; [cbv -[Z.add]; reflexivity|]; cbn [board moves turn];
     split; [apply cells_board_3x3|];
     split; [reflexivity|]; split; [reflexivity|];
     split; [rewrite !occupied_cells; cbn [mark_count is_mark]; lia|];
     split; [reflexivity|];
     intros i j Hij Hne; rewrite coordinates_eq in Hij; cbn [In] in Hij;
     repeat (destruct Hij as [Hij|Hij];
             [inversion Hij; subst; first [reflexivity | contradiction]|]);
     contradiction).
Qed.

(** ** Outcome evaluation *)

(** On a 3x3 board [is_game_over] is one scan of the eight lines. *)
Lemma is_game_over_lines (s : GameContext) :
  board_3x3 (board s) -> is_game_over s = is_game_over_in all_lines s.
Proof.
  intros H3. cells s H3.
  cbv -[filled_equal Z.eqb].
  repeat match goal with
         | |- context [filled_equal ?l] => destruct (filled_equal l); try reflexivity
         end.
Qed.

(** [filled_equal] on three cells. *)
Lemma filled_equal_3 (x y z : Cell) :
  filled_equal [x; y; z] = true <-> exists p, x = Some p /\ y = Some p /\ z = Some p.
Proof.
  split.
  - destruct x as [[]|], y as [[]|], z as [[]|]; cbn; intros H;
      try discriminate H; eexists; repeat split.
  - intros (p & -> & -> & ->). destruct p; reflexivity.
Qed.

Lemma all_lines_three (line : list (Z * Z)) :
  In line all_lines -> exists p q r, line = [p; q; r].
Proof.
  intros H. cbv in H.
  repeat (destruct H as [H|H]; [subst line; repeat eexists|]).
  contradiction.
Qed.

(** Every cell of a line lies on the board. *)
Lemma all_lines_coordinates (line : list (Z * Z)) (ij : Z * Z) :
  In line all_lines -> In ij line -> In ij coordinates.
Proof.
  intros H Hij. rewrite coordinates_eq. cbv in H.
  repeat (destruct H as [H|H];
          [subst line; cbn [In] in Hij; cbn [In]; intuition auto|]).
  contradiction.
Qed.

Lemma cell_at_coordinates (b : Board) (ij : Z * Z) :
  board_3x3 b -> In ij coordinates ->
  cell_at b (fst ij) (snd ij) = Some (cell_or_none b (fst ij) (snd ij)).
Proof.
  intros H3 H.
  destruct (board_3x3_cells b H3)
    as (a0 & a1 & a2 & b0 & b1 & b2 & c0 & c1 & c2 & ->).
  rewrite coordinates_eq in H; cbn [In] in H.
  repeat (destruct H as [H|H]; [subst ij; reflexivity|]). contradiction.
Qed.

(** A line passes [filled_equal] exactly when it is complete for the mark in
    its first cell. *)
Lemma filled_equal_complete (b : Board) (line : list (Z * Z)) :
  board_3x3 b -> In line all_lines ->
  filled_equal (line_cells b line) = true <->
  exists p, complete_for b p line /\ hd None (line_cells b line) = Some p.
Proof.
  intros H3 Hin.
  destruct (all_lines_three line Hin) as (p & q & r & ->).
  assert (Hc : forall ij, In ij [p; q; r] ->
                 cell_at b (fst ij) (snd ij) = Some (cell_or_none b (fst ij) (snd ij))).
  { intros ij Hij. apply cell_at_coordinates; [exact H3|].
    eapply all_lines_coordinates; eassumption. }
  cbn [line_cells map hd]. rewrite filled_equal_3. unfold complete_for.
  assert (Hip : In p [p; q; r]) by (cbn [In]; auto).
  assert (Hiq : In q [p; q; r]) by (cbn [In]; auto).
  assert (Hir : In r [p; q; r]) by (cbn [In]; auto).
  split.
  - intros (w & Hp & Hq & Hr). exists w. split; [|exact Hp].
    repeat constructor; cbn beta; rewrite Hc by assumption;
      f_equal; assumption.
  - intros (w & HF & _). exists w.
    inversion HF as [|? ? Hp HF1]; subst.
    inversion HF1 as [|? ? Hq HF2]; subst.
    inversion HF2 as [|? ? Hr _]; subst.
    rewrite Hc in Hp, Hq, Hr by assumption.
    repeat split; [injection Hp|injection Hq|injection Hr]; auto.
Qed.

Lemma first_filled_Some (ls : list (list Cell)) (l : list Cell) :
  first_filled ls = Some l -> In l ls /\ filled_equal l = true.
Proof.
  induction ls as [|l0 ls IH]; cbn; [discriminate|].
  destruct (filled_equal l0) eqn:E.
  - intros [= <-]. auto.
  - intros H. destruct (IH H). auto.
Qed.

Lemma first_filled_None (ls : list (list Cell)) :
  first_filled ls = None <-> forall l, In l ls -> filled_equal l = false.
Proof.
  induction ls as [|l0 ls IH]; cbn.
  - split; [intros _ l []|reflexivity].
  - destruct (filled_equal l0) eqn:E.
    + split; [discriminate|]. intros H. rewrite (H l0) in E by auto. discriminate.
    + rewrite IH. split.
      * intros H l [<-|Hl]; auto.
      * intros H l Hl. auto.
Qed.

(** The verdict of a scan of the lines in any order. *)
Lemma is_game_over_in_cases (order : list (list (Z * Z))) (s : GameContext) :
  board_3x3 (board s) ->
  (forall line, In line order -> In line all_lines) ->
  (exists w line,
      In line order /\ complete_for (board s) w line /\
      is_game_over_in order s = (true, Some w)) \/
  ((forall w line, In line order -> ~ complete_for (board s) w line) /\
   is_game_over_in order s = (if moves s =? 9 then (true, None) else (false, None))).
Proof.
  intros H3 Hsub. unfold is_game_over_in.
  destruct (first_filled (map (line_cells (board s)) order)) as [l|] eqn:E.
  - left. apply first_filled_Some in E. destruct E as [Hin Hf].
    apply in_map_iff in Hin. destruct Hin as (line & <- & Hline).
    apply (filled_equal_complete _ _ H3 (Hsub _ Hline)) in Hf.
    destruct Hf as (w & Hw & Hhd). exists w, line. rewrite Hhd. auto.
  - right. split; [|reflexivity].
    intros w line Hline Hw.
    rewrite first_filled_None in E.
    specialize (E (line_cells (board s) line) (in_map _ _ _ Hline)).
    assert (Hf : filled_equal (line_cells (board s) line) = true).
    { apply (filled_equal_complete _ _ H3 (Hsub _ Hline)).
      exists w. split; [exact Hw|].
      destruct (all_lines_three line (Hsub _ Hline)) as (p & q & r & ->).
      inversion Hw as [|? ? Hp _]; subst.
      cbn [line_cells map hd]. unfold cell_or_none. now rewrite Hp. }
    rewrite Hf in E. discriminate.
Qed.

(** The outcomes of [is_game_over] on a 3x3 board: a complete line and its
    mark, or no complete line and the verdict of the move counter. *)
Lemma is_game_over_cases (s : GameContext) :
  board_3x3 (board s) ->
  (exists w line,
      In line all_lines /\ complete_for (board s) w line /\
      is_game_over s = (true, Some w)) \/
  ((forall w line, In line all_lines -> ~ complete_for (board s) w line) /\
   is_game_over s = (if moves s =? 9 then (true, None) else (false, None))).
Proof.
  intros H3. rewrite (is_game_over_lines s H3).
  apply is_game_over_in_cases; auto.
Qed.

(** C2. On every game context (a 3x3 board), [is_game_over] returns
    [(True, winner)] exactly when a row, a column or a diagonal is filled
    with three equal marks, and [winner] is then the mark of such a line; it
    returns [(True, None)] when no line is complete and [moves] is 9, and
    [(False, None)] when no line is complete and [moves] is not 9. *)
Theorem is_game_over_spec (s : GameContext) :
  board_3x3 (board s) ->
  (forall w, is_game_over s = (true, Some w) ->
             exists line, In line all_lines /\ complete_for (board s) w line) /\
  ((exists w line, In line all_lines /\ complete_for (board s) w line) ->
   exists w, is_game_over s = (true, Some w)) /\
  ((forall w line, In line all_lines -> ~ complete_for (board s) w line) ->
   moves s = 9 -> is_game_over s = (true, None)) /\
  ((forall w line, In line all_lines -> ~ complete_for (board s) w line) ->
   moves s <> 9 -> is_game_over s = (false, None)).
Proof.
  intros H3.
  destruct (is_game_over_cases s H3)
    as [(w & line & Hline & Hw & ->)|[Hno ->]].
  - split; [|split; [|split]].
    + intros w' [= <-]. eauto.
    + intros _. eauto.
    + intros Hno _. exfalso. eapply Hno; eassumption.
    + intros Hno _. exfalso. eapply Hno; eassumption.
  - split; [|split; [|split]].
    + intros w. destruct (moves s =? 9); discriminate.
    + intros (w & line & Hline & Hw). exfalso. eapply Hno; eassumption.
    + intros _ ->. reflexivity.
    + intros _ Hne. apply Z.eqb_neq in Hne. now rewrite Hne.
Qed.

(** The theorem at a board won on the anti-diagonal. *)
Lemma is_game_over_spec_witness :
  let s := {| moves := 5; board := [[X_;__;O_];[X_;O_;__];[O_;__;__]];
              turn := Player.X |} in
  board_3x3 (board s) /\
  exists line, In line all_lines /\ complete_for (board s) Player.O line.
Proof.
  cbn zeta.
  split; [apply cells_board_3x3|].
  apply (is_game_over_spec
           {| moves := 5; board := [[X_;__;O_];[X_;O_;__];[O_;__;__]];
              turn := Player.X |}).
  - apply cells_board_3x3.
  - reflexivity.
Defined.

(** ** Reachable states *)

Lemma GameContext_init_consistent : consistent GameContext_init.
Proof. split; [apply cells_board_3x3 | reflexivity]. Qed.

Lemma update_consistent (s : GameContext) (row col : Z) (s' : GameContext) :
  consistent s -> In (row, col) (possible_moves s) ->
  update row col s = (Ok tt, s') -> consistent s'.
Proof.
  intros [H3 Hm] Hin Hup.
  destruct (update_legal s row col H3 Hin)
    as (s1 & Hup1 & H31 & Hm1 & _ & Ho1 & _).
  rewrite Hup in Hup1. injection Hup1 as <-.
  split; [exact H31|]. rewrite Hm1, Ho1, Hm. reflexivity.
Qed.

Lemma reachable_consistent (s : GameContext) : reachable s -> consistent s.
Proof.
  induction 1 as [|s row col s' _ IH Hin Hup].
  - apply GameContext_init_consistent.
  - eapply update_consistent; eassumption.
Qed.

Lemma reachable_play_reachable (s : GameContext) : reachable_play s -> reachable s.
Proof.
  induction 1; [constructor | econstructor; eassumption].
Qed.

Lemma move_eqb_eq (a b : Z * Z) : move_eqb a b = true -> a = b.
Proof.
  destruct a, b. unfold move_eqb; cbn [fst snd].
  rewrite andb_true_iff, !Z.eqb_eq. intros [-> ->]. reflexivity.
Qed.

Lemma run_game_reachable (mvs : list (Z * Z)) (s s' : GameContext) :
  reachable_play s -> run_game mvs s = Some s' -> reachable_play s'.
Proof.
  revert s. induction mvs as [|[row col] mvs IH]; intros s Hs; cbn [run_game].
  - intros [= <-]. exact Hs.
  - destruct (negb (fst (is_game_over s))) eqn:Hover; [|discriminate].
    destruct (existsb (move_eqb (row, col)) (possible_moves s)) eqn:Hex;
      [|discriminate].
    cbn [andb fst snd].
    destruct (update row col s) as [[[]|e] s1] eqn:Hup; [|discriminate].
    apply IH. eapply reachable_play_move; try eassumption.
    + now apply negb_true_iff in Hover.
    + apply existsb_exists in Hex. destruct Hex as (mv & Hin & Heq).
      apply move_eqb_eq in Heq. now subst mv.
Qed.

(** C7. In every state reached from the empty board by moves on empty
    cells, [moves] equals the number of non-empty cells; and every [update]
    on an empty cell of a 3x3 board keeps that equality. *)
Theorem moves_counts_marks :
  (forall s, reachable s -> moves s = occupied (board s)) /\
  (forall s row col,
      board_3x3 (board s) -> moves s = occupied (board s) ->
      In (row, col) (possible_moves s) ->
      exists s', update row col s = (Ok tt, s') /\ moves s' = occupied (board s')).
Proof.
  split.
  - intros s Hs. apply (reachable_consistent s Hs).
  - intros s row col H3 Hm Hin.
    destruct (update_legal s row col H3 Hin)
      as (s' & Hup & _ & Hm' & _ & Ho' & _).
    exists s'. split; [exact Hup|]. rewrite Hm', Ho', Hm. reflexivity.
Qed.

(** The theorem after the opening move [(1, 1)]. *)
Lemma moves_counts_marks_witness :
  let s := {| moves := 1; board := [[__;__;__];[__;O_;__];[__;__;__]];
              turn := Player.X |} in
  reachable s /\ moves s = occupied (board s) /\
  exists s', update 0 0 s = (Ok tt, s') /\ moves s' = occupied (board s').
Proof.
  cbn zeta.
  assert (Hr : reachable {| moves := 1; board := [[__;__;__];[__;O_;__];[__;__;__]];
                            turn := Player.X |}).
  { apply (reachable_move GameContext_init 1 1).
    - apply reachable_init.
    - vm_compute. auto 10.
    - reflexivity. }
  split; [exact Hr|]. split.
  - apply (proj1 moves_counts_marks _ Hr).
  - apply (proj2 moves_counts_marks).
    + apply cells_board_3x3.
    + reflexivity.
    + vm_compute. auto.
Defined.

(** ** One winner *)

Lemma other_involutive (p : Player) : Player.other (Player.other p) = p.
Proof. destruct p; reflexivity. Qed.

Lemma move_eq_dec (a b : Z * Z) : {a = b} + {a <> b}.
Proof. decide equality; apply Z.eq_dec. Qed.

(** No line of the empty board is complete. *)
Lemma GameContext_init_no_line (w : Player) (line : list (Z * Z)) :
  In line all_lines -> ~ complete_for (board GameContext_init) w line.
Proof.
  intros Hline Hw.
  destruct (is_game_over_cases GameContext_init (cells_board_3x3 _ _ _ _ _ _ _ _ _))
    as [(w' & line' & _ & _ & Hov)|[Hno _]].
  - discriminate Hov.
  - eapply Hno; eassumption.
Qed.

(** While the game is not over no line is complete. *)
Lemma not_over_no_line (s : GameContext) (w : Player) (line : list (Z * Z)) :
  board_3x3 (board s) -> fst (is_game_over s) = false ->
  In line all_lines -> ~ complete_for (board s) w line.
Proof.
  intros H3 Hover Hline Hw.
  destruct (is_game_over_cases s H3) as [(w' & line' & _ & _ & Hov)|[Hno _]].
  - rewrite Hov in Hover. discriminate.
  - eapply Hno; eassumption.
Qed.

(** A line completed by a move is a line of the player who moved. *)
Lemma update_completes_for_mover (s s' : GameContext) (row col : Z)
      (w : Player) (line : list (Z * Z)) :
  board_3x3 (board s) ->
  (forall w0 line0, In line0 all_lines -> ~ complete_for (board s) w0 line0) ->
  In (row, col) (possible_moves s) ->
  update row col s = (Ok tt, s') ->
  In line all_lines -> complete_for (board s') w line ->
  w = turn s.
Proof.
  intros H3 Hno Hin Hup Hline Hw.
  destruct (update_legal s row col H3 Hin)
    as (s1 & Hup1 & _ & _ & _ & _ & Hcell & Hframe).
  rewrite Hup in Hup1. injection Hup1 as <-.
  destruct (in_dec move_eq_dec (row, col) line) as [Hon|Hoff].
  - unfold complete_for in Hw. rewrite List.Forall_forall in Hw.
    specialize (Hw _ Hon). cbn [fst snd] in Hw.
    rewrite Hcell in Hw. now injection Hw.
  - exfalso. apply (Hno w line Hline).
    unfold complete_for in *. rewrite List.Forall_forall in *.
    intros [i j] Hij. cbn [fst snd].
    rewrite <- (Hframe i j).
    + apply (Hw (i, j) Hij).
    + eapply all_lines_coordinates; eassumption.
    + intros Heq. apply Hoff. rewrite <- Heq. exact Hij.
Qed.

(** In a state of play every complete line belongs to the player who moved
    last. *)
Lemma reachable_play_lines (s : GameContext) :
  reachable_play s ->
  forall w line, In line all_lines -> complete_for (board s) w line ->
                 w = Player.other (turn s).
Proof.
  induction 1 as [|s row col s' Hs IH Hover Hin Hup]; intros w line Hline Hw.
  - exfalso. eapply GameContext_init_no_line; eassumption.
  - pose proof (reachable_consistent s (reachable_play_reachable s Hs)) as [H3 _].
    assert (Hw' : w = turn s).
    { eapply update_completes_for_mover; try eassumption.
      intros w0 line0. now apply not_over_no_line. }
    destruct (update_legal s row col H3 Hin) as (s1 & Hup1 & _ & _ & Ht & _).
    rewrite Hup in Hup1. injection Hup1 as <-.
    rewrite Ht, other_involutive. exact Hw'.
Qed.

(** C6, as the code has it.  In every state reached from the empty board by
    moves on empty cells, none made once the game is over, all complete
    lines carry the same mark, so no state has two different winners; and
    [is_game_over] returns the same result whatever the order in which the
    eight lines are checked. *)
Theorem one_winner (s : GameContext) :
  reachable_play s ->
  (forall w1 w2 l1 l2,
      In l1 all_lines -> In l2 all_lines ->
      complete_for (board s) w1 l1 -> complete_for (board s) w2 l2 ->
      w1 = w2) /\
  (forall order, Permutation all_lines order ->
                 is_game_over_in order s = is_game_over s).
Proof.
  intros Hs.
  pose proof (reachable_play_lines s Hs) as Hlast.
  pose proof (reachable_consistent s (reachable_play_reachable s Hs)) as [H3 _].
  split.
  - intros w1 w2 l1 l2 H1 H2 Hw1 Hw2.
    rewrite (Hlast w1 l1 H1 Hw1), (Hlast w2 l2 H2 Hw2). reflexivity.
  - intros order Hperm.
    assert (Hsub : forall line, In line order -> In line all_lines).
    { intros line Hl. apply (Permutation_in _ (Permutation_sym Hperm) Hl). }
    destruct (is_game_over_in_cases order s H3 Hsub)
      as [(w & line & Hline & Hw & ->)|[Hno ->]];
      destruct (is_game_over_cases s H3)
        as [(w' & line' & Hline' & Hw' & ->)|[Hno' ->]].
    + rewrite (Hlast w line (Hsub _ Hline) Hw), (Hlast w' line' Hline' Hw').
      reflexivity.
    + exfalso. apply (Hno' w line (Hsub _ Hline) Hw).
    + exfalso. apply (Hno w' line' (Permutation_in _ Hperm Hline') Hw').
    + reflexivity.
Qed.

(** The theorem at the state after the opening move [(1, 1)], for the
    check order diagonals, columns, rows. *)
Lemma one_winner_witness :
  let s := {| moves := 1; board := [[__;__;__];[__;O_;__];[__;__;__]];
              turn := Player.X |} in
  reachable_play s /\
  is_game_over_in (diags ++ cols3 ++ rows3) s = is_game_over s.
Proof.
  cbn zeta.
  assert (Hr : reachable_play
                 {| moves := 1; board := [[__;__;__];[__;O_;__];[__;__;__]];
                    turn := Player.X |}).
  { apply (run_game_reachable [(1, 1)] GameContext_init).
    - apply reachable_play_init.
    - reflexivity. }
  split; [exact Hr|].
  apply (proj2 (one_winner _ Hr)).
  unfold all_lines.
  apply Permutation_trans with ((cols3 ++ diags) ++ rows3).
  - apply Permutation_app_comm.
  - rewrite (List.app_assoc diags cols3 rows3).
    apply Permutation_app_tail. apply Permutation_app_comm.
Defined.

(** C6, as stated, fails: with [O] moving first, the ninth move [(0, 0)]
    completes the top row and the left column at once, so two of the eight
    lines are complete in a state of play. *)
Lemma two_lines_complete :
  let s := {| moves := 9; board := [[O_;O_;O_];[O_;X_;X_];[O_;X_;X_]];
              turn := Player.X |} in
  run_game [(0,1);(1,1);(0,2);(1,2);(1,0);(2,1);(2,0);(2,2);(0,0)] GameContext_init
  = Some s /\
  reachable_play s /\
  complete_lines (board s) = [[(0,0);(0,1);(0,2)]; [(0,0);(1,0);(2,0)]] /\
  complete_for (board s) Player.O [(0,0);(0,1);(0,2)] /\
  complete_for (board s) Player.O [(0,0);(1,0);(2,0)].
Proof.
  cbn zeta.
  assert (Hrun : run_game [(0,1);(1,1);(0,2);(1,2);(1,0);(2,1);(2,0);(2,2);(0,0)]
                          GameContext_init
                 = Some {| moves := 9; board := [[O_;O_;O_];[O_;X_;X_];[O_;X_;X_]];
                           turn := Player.X |}) by reflexivity.
  split; [exact Hrun|]. split.
  - exact (run_game_reachable _ _ _ reachable_play_init Hrun).
  - split; [reflexivity|]. split; repeat constructor.
Qed.

(** ** [update]: no guard, in-place change *)

(** On any of the nine cells [update] succeeds, whatever the cell holds. *)
Lemma update_in_range (s : GameContext) (row col : Z) :
  board_3x3 (board s) ->
  In (row, col) coordinates ->
  exists s',
    update row col s = (Ok tt, s') /\
    board_3x3 (board s') /\
    moves s' = moves s + 1 /\
    turn s' = Player.other (turn s) /\
    cell_at (board s') row col = Some (Some (turn s)) /\
    (forall i j, In (i, j) coordinates -> (i, j) <> (row, col) ->
                 cell_at (board s') i j = cell_at (board s) i j).
Proof.
  intros H3 Hc. cells s H3.
  rewrite coordinates_eq in Hc; cbn [In] in Hc.
  repeat (destruct Hc as [Hc|Hc]; [inversion Hc; subst; clear Hc|]);
    [ .. | contradiction ];
    (eexists; split; [cbv -[Z.add]; reflexivity|]; cbn [board moves turn];
     split; [apply cells_board_3x3|];
     split; [reflexivity|]; split; [reflexivity|];
     split; [reflexivity|];
     intros i j Hij Hne; rewrite coordinates_eq in Hij; cbn [In] in Hij;
     repeat (destruct Hij as [Hij|Hij];
             [inversion Hij; subst; first [reflexivity | contradiction]|]);
     contradiction).
Qed.

Lemma in_range3_coordinates (row col : Z) :
  in_range3 row = true -> in_range3 col = true -> In (row, col) coordinates.
Proof.
  unfold in_range3. rewrite !andb_true_iff, !Z.leb_le, !Z.ltb_lt.
  intros [? ?] [? ?]. rewrite coordinates_eq. cbn [In].
  assert (Hr : row = 0 \/ row = 1 \/ row = 2) by lia.
  assert (Hc : col = 0 \/ col = 1 \/ col = 2) by lia.
  destruct Hr as [-> | [-> | ->]], Hc as [-> | [-> | ->]]; auto 10.
Qed.

(** C3, as the code has it.  [update] checks nothing: on a cell of the
    board that already holds a mark it does not fail, it overwrites the
    cell with the mark of the player to move, increments [moves] and flips
    [turn].  Moves on a cell that is not empty, or outside [0,2]x[0,2], are
    refused by the caller: [mouse_callback] returns without an exception
    and leaves the whole application state as it was. *)
Theorem update_unguarded (s : GameContext) (row col : Z) :
  board_3x3 (board s) ->
  (forall p, In (row, col) coordinates ->
             cell_at (board s) row col = Some (Some p) ->
             exists s', update row col s = (Ok tt, s') /\
                        moves s' = moves s + 1 /\
                        turn s' = Player.other (turn s) /\
                        cell_at (board s') row col = Some (Some (turn s))) /\
  (forall fuel app,
      ctxs (world app) !! ctx app = Some s ->
      in_range3 row && in_range3 col = false \/ is_empty_at (board s) (row, col) = false ->
      mouse_callback fuel row col app = (Ok tt, app)).
Proof.
  intros H3. split.
  - intros p Hc _.
    destruct (update_in_range s row col H3 Hc) as (s' & Hup & _ & Hm & Ht & Hcell & _).
    exists s'. auto.
  - intros fuel app Hl Hbad. unfold mouse_callback.
    destruct (in_range3 row) eqn:Hr; [|reflexivity].
    destruct (in_range3 col) eqn:Hcol; [|reflexivity].
    cbn [negb orb]. rewrite Hl.
    destruct Hbad as [Hbad|Hbad]; [discriminate Hbad|].
    rewrite Hbad, andb_false_r. reflexivity.
Qed.

(** The theorem on the board after the opening move [(1, 1)], for a second
    move on the same cell. *)
Lemma update_unguarded_witness :
  let s := {| moves := 1; board := [[__;__;__];[__;O_;__];[__;__;__]];
              turn := Player.X |} in
  let app := {| world := {| ctxs := [s]; bot := MinimaxBot_init Player.O 8 |};
                ctx := 0%nat; user_player := Player.X; accept_user_input := true |} in
  board_3x3 (board s) /\
  (exists s', update 1 1 s = (Ok tt, s') /\ moves s' = moves s + 1 /\
              turn s' = Player.other (turn s) /\
              cell_at (board s') 1 1 = Some (Some (turn s))) /\
  mouse_callback 10 1 1 app = (Ok tt, app).
Proof.
  cbn zeta.
  pose proof (update_unguarded
                {| moves := 1; board := [[__;__;__];[__;O_;__];[__;__;__]];
                   turn := Player.X |} 1 1 (cells_board_3x3 _ _ _ _ _ _ _ _ _))
    as [Hup Hcb].
  split; [apply cells_board_3x3|]. split.
  - apply (Hup Player.O).
    + vm_compute. auto 10.
    + reflexivity.
  - apply Hcb.
    + reflexivity.
    + right. reflexivity.
Defined.

(** C3, as stated, fails: a second [update] on the cell [(1, 1)] raises
    nothing and changes the state: the [O] there is overwritten by [X],
    [moves] becomes 2 and the turn passes on. *)
Lemma update_occupied_cell_succeeds :
  let s := {| moves := 1; board := [[__;__;__];[__;O_;__];[__;__;__]];
              turn := Player.X |} in
  let s' := {| moves := 2; board := [[__;__;__];[__;X_;__];[__;__;__]];
               turn := Player.O |} in
  update 1 1 GameContext_init = (Ok tt, s) /\
  update 1 1 s = (Ok tt, s') /\ s' <> s.
Proof.
  cbn zeta. split; [reflexivity|]. split; [reflexivity|]. discriminate.
Qed.

Lemma call_update_at (w : World) (l : loc) (s s' : GameContext) (row col : Z)
      (r : Res unit) :
  ctxs w !! l = Some s -> update row col s = (r, s') ->
  call_update l row col w = (r, {| ctxs := <[l := s']> (ctxs w); bot := bot w |}).
Proof. intros Hl Hup. unfold call_update. rewrite Hl, Hup. reflexivity. Qed.

Lemma deepcopy_at (w : World) (l : loc) (s : GameContext) :
  ctxs w !! l = Some s ->
  deepcopy l w = (Ok (length (ctxs w)), {| ctxs := ctxs w ++ [s]; bot := bot w |}).
Proof. intros Hl. unfold deepcopy. rewrite Hl. reflexivity. Qed.

(** C4, as the code has it.  On a legal move [update] returns Python's
    [None] and changes its receiver in place: the object the caller passed
    holds the mover's mark in the cell (the other cells as before), the
    incremented [moves] and the flipped [turn], so it no longer equals what
    it was; no object is created and no other object is touched.  A caller
    that needs the input preserved copies it first, as [minimax] does:
    after [deepcopy] and [update] on the copy the original holds what it
    held. *)
Theorem update_in_place (w : World) (l : loc) (s : GameContext) (row col : Z) :
  ctxs w !! l = Some s ->
  board_3x3 (board s) ->
  In (row, col) (possible_moves s) ->
  exists s',
    update row col s = (Ok tt, s') /\ s' <> s /\
    (cell_at (board s') row col = Some (Some (turn s)) /\
     (forall i j, In (i, j) coordinates -> (i, j) <> (row, col) ->
                  cell_at (board s') i j = cell_at (board s) i j) /\
     moves s' = moves s + 1 /\
     turn s' = Player.other (turn s)) /\
    (let w1 := snd (call_update l row col w) in
     fst (call_update l row col w) = Ok tt /\
     ctxs w1 !! l = Some s' /\
     (forall l', l' <> l -> ctxs w1 !! l' = ctxs w !! l') /\
     bot w1 = bot w /\
     length (ctxs w1) = length (ctxs w)) /\
    (let copy_then_update :=
       let* new_ctx := deepcopy l in
       let* _ := call_update new_ctx row col in
       ret new_ctx in
     let w2 := snd (copy_then_update w) in
     fst (copy_then_update w) = Ok (length (ctxs w)) /\
     ctxs w2 !! l = Some s /\
     ctxs w2 !! length (ctxs w) = Some s').
Proof.
  intros Hl H3 Hin.
  destruct (update_legal s row col H3 Hin)
    as (s' & Hup & _ & Hm & Ht & _ & Hcell & Hframe).
  exists s'. split; [exact Hup|]. split; [|split].
  - intros ->. lia.
  - auto.
  - pose proof (lookup_lt_Some _ _ _ Hl) as Hlt.
    split; cbn zeta.
    + rewrite (call_update_at w l s s' row col (Ok tt) Hl Hup). cbn [fst snd ctxs bot].
      split; [reflexivity|]. split; [|split; [|split]].
      * now apply list_lookup_insert_eq.
      * intros l' Hne. apply list_lookup_insert_ne. auto.
      * reflexivity.
      * apply length_insert.
    + unfold bind. rewrite (deepcopy_at w l s Hl).
      assert (Hnew : ctxs {| ctxs := ctxs w ++ [s]; bot := bot w |} !! length (ctxs w)
                     = Some s).
      { cbn [ctxs]. rewrite lookup_app_r by lia.
        now replace (length (ctxs w) - length (ctxs w))%nat with 0%nat by lia. }
      rewrite (call_update_at _ _ s s' row col (Ok tt) Hnew Hup).
      cbn [fst snd ctxs ret].
      assert (Hins : <[length (ctxs w) := s']> (ctxs w ++ [s]) = ctxs w ++ [s']).
      { rewrite insert_app_r_alt by lia.
        now replace (length (ctxs w) - length (ctxs w))%nat with 0%nat by lia. }
      rewrite Hins. split; [reflexivity|]. split.
      * now rewrite lookup_app_l by lia.
      * rewrite lookup_app_r by lia.
        now replace (length (ctxs w) - length (ctxs w))%nat with 0%nat by lia.
Qed.

(** The theorem for the opening move [(1, 1)] on a fresh context. *)
Lemma update_in_place_witness :
  let w := {| ctxs := [GameContext_init]; bot := MinimaxBot_init Player.X 8 |} in
  ctxs w !! 0%nat = Some GameContext_init /\
  exists s',
    update 1 1 GameContext_init = (Ok tt, s') /\ s' <> GameContext_init /\
    cell_at (board s') 1 1 = Some O_ /\ moves s' = 1 /\ turn s' = Player.X /\
    ctxs (snd (call_update 0%nat 1 1 w)) !! 0%nat = Some s'.
Proof.
  cbn zeta. split; [reflexivity|].
  destruct (update_in_place
              {| ctxs := [GameContext_init]; bot := MinimaxBot_init Player.X 8 |}
              0%nat GameContext_init 1 1)
    as (s' & Hup & Hne & (Hcell & _ & Hm & Ht) & (_ & Hl & _) & _).
  - reflexivity.
  - apply cells_board_3x3.
  - vm_compute. auto 10.
  - exists s'. repeat split; assumption.
Defined.

(** C4, as stated, fails: after [update(1, 1)] the context that was passed
    in no longer equals what it was before the call, and the call returns
    [None], not a new state. *)
Lemma update_mutates_receiver :
  let w := {| ctxs := [GameContext_init]; bot := MinimaxBot_init Player.X 8 |} in
  let s' := {| moves := 1; board := [[__;__;__];[__;O_;__];[__;__;__]];
               turn := Player.X |} in
  call_update 0%nat 1 1 w
  = (Ok tt, {| ctxs := [s']; bot := MinimaxBot_init Player.X 8 |}) /\
  ctxs w !! 0%nat = Some GameContext_init /\
  ctxs (snd (call_update 0%nat 1 1 w)) !! 0%nat = Some s' /\
  s' <> GameContext_init.
Proof.
  cbn zeta. repeat split; try reflexivity. discriminate.
Qed.

(** ** Reasoning about store-passing code *)

Lemma wp_ret {A} (a : A) (Q : Res A -> World -> Prop) (w : World) :
  Q (Ok a) w -> wp (ret a) Q w.
Proof. exact (fun H => H). Qed.

Lemma wp_raise {A} (e : exn) (Q : Res A -> World -> Prop) (w : World) :
  Q (Raise e) w -> wp (raise e) Q w.
Proof. exact (fun H => H). Qed.

Lemma wp_bind {A B} (c : M A) (k : A -> M B) (Q : Res B -> World -> Prop) (w : World) :
  wp c (fun r w' => match r with
                    | Ok a => wp (k a) Q w'
                    | Raise e => Q (Raise e) w'
                    end) w ->
  wp (bind c k) Q w.
Proof.
  unfold wp, bind. destruct (c w) as [[a|e] w']; cbn [fst snd]; auto.
Qed.

Lemma wp_mono {A} (c : M A) (Q Q' : Res A -> World -> Prop) (w : World) :
  wp c Q w -> (forall r w', Q r w' -> Q' r w') -> wp c Q' w.
Proof. unfold wp. auto. Qed.

Lemma wp_read (l : loc) (Q : Res GameContext -> World -> Prop) (w : World) :
  (forall c, ctxs w !! l = Some c -> Q (Ok c) w) ->
  (ctxs w !! l = None -> Q (Raise Dangling) w) ->
  wp (read l) Q w.
Proof.
  intros Hs Hn. unfold wp, read.
  destruct (ctxs w !! l) as [c|]; cbn [fst snd]; auto.
Qed.

Lemma wp_get_bot (Q : Res MinimaxBot -> World -> Prop) (w : World) :
  Q (Ok (bot w)) w -> wp get_bot Q w.
Proof. exact (fun H => H). Qed.

(** A loop whose body keeps [J] keeps [J], however it ends. *)
Lemma wp_for_each_keeps {A B} (J : World -> Prop) (body : A -> M B) (items : list A) :
  (forall x w, J w -> wp (body x) (fun _ w' => J w') w) ->
  forall w, J w -> wp (for_each body items) (fun _ w' => J w') w.
Proof.
  intros Hbody. induction items as [|x items IH]; intros w Hw; cbn [for_each].
  - apply wp_ret. exact Hw.
  - apply wp_bind. eapply wp_mono; [apply (Hbody x w Hw)|].
    intros [y|e] w1 H1; [|exact H1].
    apply wp_bind. eapply wp_mono; [apply (IH w1 H1)|].
    intros [ys|e] w2 H2; [|exact H2].
    apply wp_ret. exact H2.
Qed.

(** A loop whose body returns [g x] on every item [x] returns [map g]. *)
Lemma wp_for_each_map {A B} (J : World -> Prop) (body : A -> M B) (g : A -> B)
      (items : list A) :
  (forall x w, In x items -> J w ->
               wp (body x) (fun r w' => r = Ok (g x) /\ J w') w) ->
  forall w, J w ->
            wp (for_each body items) (fun r w' => r = Ok (map g items) /\ J w') w.
Proof.
  induction items as [|x items IH]; intros Hbody w Hw; cbn [for_each].
  - apply wp_ret. auto.
  - apply wp_bind. eapply wp_mono; [apply (Hbody x w (or_introl eq_refl) Hw)|].
    intros r w1 [-> H1].
    apply wp_bind. eapply wp_mono.
    + apply IH; [|exact H1]. intros x' w' Hx'. apply Hbody. now right.
    + intros r w2 [-> H2]. apply wp_ret. auto.
Qed.

(** ** The search leaves its caller's objects alone *)

Lemma extends_refl (w : World) : extends w w.
Proof. split; [exists []; now rewrite app_nil_r | auto]. Qed.

Lemma extends_trans (w1 w2 w3 : World) :
  extends w1 w2 -> extends w2 w3 -> extends w1 w3.
Proof.
  intros [[e1 H1] [Hp1 Hd1]] [[e2 H2] [Hp2 Hd2]]. split; [|split].
  - exists (e1 ++ e2). now rewrite H2, H1, <- app_assoc.
  - now rewrite Hp2.
  - now rewrite Hd2.
Qed.

Lemma extends_lookup (w w' : World) (l : loc) (s : GameContext) :
  extends w w' -> ctxs w !! l = Some s -> ctxs w' !! l = Some s.
Proof.
  intros [[ext ->] _] Hl. now apply lookup_app_l_Some.
Qed.

Lemma grows_refl (d : Z) (w : World) : grows d w w.
Proof. split; [apply extends_refl | auto]. Qed.

Lemma grows_trans (d : Z) (w1 w2 w3 : World) :
  grows d w1 w2 -> grows d w2 w3 -> grows d w1 w3.
Proof.
  intros [He1 Hm1] [He2 Hm2]. split; [eapply extends_trans; eassumption|].
  intros Hd. rewrite Hm2, Hm1; auto.
  destruct He1 as (_ & _ & ->). exact Hd.
Qed.

Lemma grows_deeper (d : Z) (w w' : World) : grows (d - 1) w w' -> grows d w w'.
Proof. intros [He Hm]. split; [exact He|]. intros Hd. apply Hm. lia. Qed.

(** Copying an object and updating the copy adds one object, the updated
    copy, when the update succeeds. *)
Lemma copy_update_grows (d : Z) (l : loc) (row col : Z) (w : World) :
  wp (let* new_ctx := deepcopy l in
      let* _ := call_update new_ctx row col in
      ret new_ctx)
     (fun r w' => grows d w w' /\
                  forall s, ctxs w !! l = Some s ->
                            fst (update row col s) = Ok tt ->
                            r = Ok (length (ctxs w)) /\
                            ctxs w' = ctxs w ++ [snd (update row col s)]) w.
Proof.
  unfold wp, bind, deepcopy.
  destruct (ctxs w !! l) as [s|] eqn:Hl; cbn [fst snd];
    [|split; [apply grows_refl|discriminate]].
  unfold call_update; cbn [ctxs bot].
  rewrite lookup_app_r by lia.
  replace (length (ctxs w) - length (ctxs w))%nat with 0%nat by lia.
  cbn [lookup list_lookup].
  destruct (update row col s) as [[[]|e] s'] eqn:Hup; cbn [fst snd ret ctxs bot];
    rewrite insert_app_r_alt by lia;
    replace (length (ctxs w) - length (ctxs w))%nat with 0%nat by lia;
    cbn [insert list_insert].
  - split.
    + split; [split; [eexists; reflexivity | auto] | auto].
    + intros s0 [= <-] _. rewrite Hup. auto.
  - split.
    + split; [split; [eexists; reflexivity | auto] | auto].
    + intros s0 [= <-]. rewrite Hup. discriminate.
Qed.

(** The loop body of [minimax] is: copy, update the copy, then search. *)
Lemma body_split {B} (l : loc) (row col : Z) (k : loc -> M B) (w : World) :
  (let* new_ctx := deepcopy l in
   let* _ := call_update new_ctx row col in
   k new_ctx) w
  = (let* new_ctx := (let* new_ctx := deepcopy l in
                      let* _ := call_update new_ctx row col in
                      ret new_ctx) in
     k new_ctx) w.
Proof.
  unfold bind, ret. destruct (deepcopy l w) as [[n|e] w1]; [|reflexivity].
  destruct (call_update n row col w1) as [[[]|e] w2]; reflexivity.
Qed.

Lemma wp_body (l : loc) (row col : Z) (k : loc -> M Z)
      (Q : Res Z -> World -> Prop) (w : World) :
  wp (let* new_ctx := deepcopy l in
      let* _ := call_update new_ctx row col in
      ret new_ctx)
     (fun r w' => match r with
                  | Ok new_ctx => wp (k new_ctx) Q w'
                  | Raise e => Q (Raise e) w'
                  end) w ->
  wp (let* new_ctx := deepcopy l in
      let* _ := call_update new_ctx row col in
      k new_ctx) Q w.
Proof.
  intros H. apply wp_bind in H. unfold wp in *. now rewrite body_split.
Qed.

Lemma grows_set_move (d : Z) (w w1 : World) (mv : Z * Z) :
  grows d w w1 -> d = max_depth (bot w1) ->
  grows d w (snd (set_move mv w1)).
Proof.
  intros [[Hext [Hp Hd]] _] Heq. split.
  - split; [exact Hext | split; [exact Hp | exact Hd]].
  - rewrite <- Hd, <- Heq. lia.
Qed.

(** Whatever its arguments and however it ends, [minimax] only adds objects
    to the store; below [max_depth] it also keeps the bot's [move]. *)
Lemma minimax_grows (fuel : nat) :
  forall l d w, wp (minimax fuel l d) (fun _ w' => grows d w w') w.
Proof.
  induction fuel as [|fuel IH]; intros l d w; cbn [minimax].
  - apply wp_raise, grows_refl.
  - apply wp_bind, wp_read; [intros c Hc | intros _; apply grows_refl].
    apply wp_bind, wp_get_bot.
    destruct (is_game_over c) as [over winner].
    destruct (terminal_score (player (bot w)) over winner) as [v|];
      [apply wp_ret, grows_refl|].
    apply wp_bind, wp_read; [intros c2 Hc2 | intros _; apply grows_refl].
    apply wp_bind. eapply wp_mono.
    { apply (wp_for_each_keeps (grows d w)); [|apply grows_refl].
      intros mv w1 H1. apply wp_body.
      eapply wp_mono; [apply (copy_update_grows d)|].
      intros [n|e] w2 [H2 _].
      - eapply wp_mono; [apply IH|].
        intros r3 w3 H3. cbn beta in H3.
        eapply grows_trans; [exact H1|].
        eapply grows_trans; [exact H2|]. apply grows_deeper, H3.
      - eapply grows_trans; eassumption. }
    intros [scores|e] w1 H1; [|exact H1].
    apply wp_bind, wp_read; [intros c3 Hc3 | intros _; exact H1].
    apply wp_bind, wp_get_bot.
    apply wp_bind.
    assert (Hfin : forall sm : Z * option (Z * Z),
               wp (let* self := get_bot in
                   let* _ := (if d =? max_depth self
                              then match snd sm with
                                   | Some mv => set_move mv
                                   | None => ret tt
                                   end
                              else ret tt) in
                   ret (fst sm)) (fun _ w' => grows d w w') w1).
    { intros sm. apply wp_bind, wp_get_bot. apply wp_bind.
      destruct (d =? max_depth (bot w1)) eqn:Hd.
      - destruct (snd sm) as [mv|].
        + unfold wp at 1. cbn [fst set_move]. apply wp_ret.
          apply grows_set_move; [exact H1|]. now apply Z.eqb_eq.
        + apply wp_ret, wp_ret. exact H1.
      - apply wp_ret, wp_ret. exact H1. }
    destruct (Player.eqb (turn c3) (player (bot w1))).
    + destruct (py_max (combine scores (possible_moves c2))) as [[v mv]|].
      * apply wp_ret. apply Hfin.
      * apply wp_raise. exact H1.
    + destruct (py_min (combine scores (possible_moves c2))) as [[v mv]|].
      * apply wp_ret. apply Hfin.
      * apply wp_raise. exact H1.
Qed.

Lemma predict_move_extends (fuel : nat) (l : loc) (w : World) :
  extends w (snd (predict_move fuel l w)).
Proof.
  change (wp (predict_move fuel l) (fun _ w' => extends w w') w).
  unfold predict_move. apply wp_bind, wp_get_bot.
  apply wp_bind. eapply wp_mono; [apply minimax_grows|].
  intros [v|e] w1 [H1 _]; [|exact H1].
  apply wp_bind, wp_get_bot.
  destruct (move (bot w1)); [apply wp_ret | apply wp_raise]; exact H1.
Qed.

(** C5. For every context, every depth and every bound on the recursion,
    [minimax] and [predict_move] leave the context they are given as it
    was; so are all objects that existed before the call (the ancestors of
    a recursive call among them): the search writes only to the copies it
    makes. *)
Theorem minimax_leaves_context (fuel : nat) (l : loc) (depth : Z) (w : World)
        (s : GameContext) :
  ctxs w !! l = Some s ->
  ctxs (snd (minimax fuel l depth w)) !! l = Some s /\
  ctxs (snd (predict_move fuel l w)) !! l = Some s /\
  (forall l' s', ctxs w !! l' = Some s' ->
                 ctxs (snd (minimax fuel l depth w)) !! l' = Some s').
Proof.
  intros Hl.
  pose proof (minimax_grows fuel l depth w) as [Hext _].
  split; [|split].
  - eapply extends_lookup; eassumption.
  - eapply extends_lookup; [apply predict_move_extends | exact Hl].
  - intros l' s' Hl'. eapply extends_lookup; eassumption.
Qed.

(** The theorem for a search from a position with three empty cells. *)
Lemma minimax_leaves_context_witness :
  let s := {| moves := 6; board := [[X_;O_;X_];[O_;X_;O_];[__;__;__]];
              turn := Player.O |} in
  let w := {| ctxs := [s]; bot := MinimaxBot_init Player.O 8 |} in
  ctxs w !! 0%nat = Some s /\
  ctxs (snd (minimax 10 0%nat 8 w)) !! 0%nat = Some s.
Proof.
  cbn zeta. split; [reflexivity|].
  apply (minimax_leaves_context 10 0%nat 8
           {| ctxs := [ {| moves := 6; board := [[X_;O_;X_];[O_;X_;O_];[__;__;__]];
                           turn := Player.O |} ];
              bot := MinimaxBot_init Player.O 8 |}).
  reflexivity.
Defined.

(** ** [max] and [min] over scored moves *)

Lemma max_from_fst {A} (rest : list (Z * A)) :
  forall best, fst (max_from best rest) = fold_left Z.max (map fst rest) (fst best).
Proof.
  induction rest as [|x rest IH]; intros best; cbn [max_from map fold_left].
  - reflexivity.
  - destruct (fst best <? fst x) eqn:E; rewrite IH.
    + apply Z.ltb_lt in E. now rewrite Z.max_r by lia.
    + apply Z.ltb_ge in E. now rewrite Z.max_l by lia.
Qed.

Lemma min_from_fst {A} (rest : list (Z * A)) :
  forall best, fst (min_from best rest) = fold_left Z.min (map fst rest) (fst best).
Proof.
  induction rest as [|x rest IH]; intros best; cbn [min_from map fold_left].
  - reflexivity.
  - destruct (fst x <? fst best) eqn:E; rewrite IH.
    + apply Z.ltb_lt in E. now rewrite Z.min_r by lia.
    + apply Z.ltb_ge in E. now rewrite Z.min_l by lia.
Qed.

Lemma map_fst_combine_map {A} (g : A -> Z) (l : list A) :
  map fst (combine (map g l) l) = map g l.
Proof. induction l as [|x l IH]; cbn; [reflexivity | now rewrite IH]. Qed.

(** [py_max] returns the maximum of the keys. *)
Lemma py_max_maximum {A} (g : A -> Z) (l : list A) :
  l <> [] ->
  exists m, py_max (combine (map g l) l) = Some (maximum (map g l), m).
Proof.
  destruct l as [|x l]; [congruence|]. intros _.
  cbn [map combine py_max maximum].
  pose proof (max_from_fst (combine (map g l) l) (g x, x)) as H.
  rewrite map_fst_combine_map in H. cbn [fst] in H.
  destruct (max_from (g x, x) (combine (map g l) l)) as [v m].
  cbn [fst] in H. subst v. exists m. reflexivity.
Qed.

Lemma py_min_minimum {A} (g : A -> Z) (l : list A) :
  l <> [] ->
  exists m, py_min (combine (map g l) l) = Some (minimum (map g l), m).
Proof.
  destruct l as [|x l]; [congruence|]. intros _.
  cbn [map combine py_min minimum].
  pose proof (min_from_fst (combine (map g l) l) (g x, x)) as H.
  rewrite map_fst_combine_map in H. cbn [fst] in H.
  destruct (min_from (g x, x) (combine (map g l) l)) as [v m].
  cbn [fst] in H. subst v. exists m. reflexivity.
Qed.

(** The scan of [max] keeps the first item that no later item beats. *)
Lemma max_from_first {A} (g : A -> Z) (rest : list A) :
  forall (pre : list A) (b : A) (mid : list A),
    Forall (fun x => g x < g b) pre ->
    Forall (fun x => g x <= g b) mid ->
    let r := max_from (g b, b) (combine (map g rest) rest) in
    fst r = g (snd r) /\
    exists pre' post',
      pre ++ b :: mid ++ rest = pre' ++ snd r :: post' /\
      Forall (fun x => g x < g (snd r)) pre' /\
      Forall (fun x => g x <= g (snd r)) post'.
Proof.
  induction rest as [|x rest IH]; intros pre b mid Hpre Hmid;
    cbn [map combine max_from fst snd].
  - split; [reflexivity|]. exists pre, mid. rewrite app_nil_r. auto.
  - destruct (g b <? g x) eqn:E.
    + apply Z.ltb_lt in E.
      destruct (IH (pre ++ b :: mid) x []) as [Hv (pre' & post' & Heq & H1 & H2)].
      * apply List.Forall_app. split.
        -- eapply List.Forall_impl; [|exact Hpre]. cbn beta. intros; lia.
        -- constructor; [exact E|].
           eapply List.Forall_impl; [|exact Hmid]. cbn beta. intros; lia.
      * constructor.
      * split; [exact Hv|]. exists pre', post'. split; [|auto].
        rewrite <- Heq. cbn [app]. now rewrite <- app_assoc.
    + apply Z.ltb_ge in E.
      destruct (IH pre b (mid ++ [x])) as [Hv (pre' & post' & Heq & H1 & H2)].
      * exact Hpre.
      * apply List.Forall_app. split; [exact Hmid|]. constructor; [exact E|constructor].
      * split; [exact Hv|]. exists pre', post'. split; [|auto].
        rewrite <- Heq. now rewrite <- app_assoc.
Qed.

(** [py_max] over the moves paired with their scores picks the first move
    of maximal score. *)
Lemma py_max_first_maximal {A} (g : A -> Z) (l : list A) (v : Z) (m : A) :
  py_max (combine (map g l) l) = Some (v, m) ->
  v = g m /\ first_maximal g l m.
Proof.
  destruct l as [|x l]; cbn [map combine py_max]; [discriminate|].
  intros [= H].
  destruct (max_from_first g l [] x [] (List.Forall_nil _) (List.Forall_nil _))
    as [Hv (pre & post & Heq & H1 & H2)].
  cbn zeta in *. rewrite H in *. cbn [fst snd app] in *.
  split; [exact Hv|]. exists pre, post. auto.
Qed.

(** ** The score of a position *)

Lemma possible_moves_length (s : GameContext) :
  board_3x3 (board s) -> length (possible_moves s) = empty_cells (board s).
Proof.
  intros H3. cells s H3.
  destruct a0, a1, a2, b0, b1, b2, c0, c1, c2; reflexivity.
Qed.

(** While the game is not over a consistent context has an empty cell. *)
Lemma not_over_move_left (s : GameContext) :
  consistent s -> fst (is_game_over s) = false ->
  exists n, empty_cells (board s) = S n.
Proof.
  intros [H3 Hm] Hover.
  pose proof (empty_cells_occupied _ H3) as He.
  destruct (is_game_over_cases s H3) as [(w & line & _ & _ & Hov)|[_ Hov]];
    rewrite Hov in Hover.
  - discriminate.
  - destruct (moves s =? 9) eqn:E; [discriminate|].
    apply Z.eqb_neq in E.
    destruct (empty_cells (board s)) as [|n]; [lia | eauto].
Qed.

(** A legal move leads to a consistent context with one empty cell less. *)
Lemma after_move_consistent (s : GameContext) (mv : Z * Z) :
  consistent s -> In mv (possible_moves s) ->
  update (fst mv) (snd mv) s = (Ok tt, after_move s mv) /\
  consistent (after_move s mv) /\
  S (empty_cells (board (after_move s mv))) = empty_cells (board s).
Proof.
  intros [H3 Hm] Hin. destruct mv as [row col]. cbn [fst snd].
  destruct (update_legal s row col H3 Hin) as (s' & Hup & H3' & Hm' & _ & Ho' & _).
  unfold after_move; cbn [fst snd]. rewrite Hup; cbn [snd].
  split; [reflexivity|]. split.
  - split; [exact H3'|]. rewrite Hm', Ho', Hm. reflexivity.
  - pose proof (empty_cells_occupied _ H3).
    pose proof (empty_cells_occupied _ H3'). lia.
Qed.

Lemma terminal_score_cases (p : Player) (over : bool) (winner : option Player) :
  terminal_score p over winner =
  match over, winner with
  | true, Some w => Some (if Player.eqb w p then 10 else -10)
  | true, None => Some 0
  | false, _ => None
  end.
Proof. destruct over, winner as [[]|], p; reflexivity. Qed.

(** At a terminal position the score is the one [minimax] returns. *)
Lemma score_terminal (p : Player) (s : GameContext) (winner : option Player) :
  is_game_over s = (true, winner) ->
  terminal_score p true winner = Some (score p s).
Proof.
  intros Hov. rewrite terminal_score_cases. unfold score.
  destruct (empty_cells (board s)); cbn [score_within]; rewrite Hov;
    destruct winner; reflexivity.
Qed.

(** Elsewhere it is the maximum or the minimum of the children's scores. *)
Lemma score_unfold (p : Player) (s : GameContext) :
  consistent s -> fst (is_game_over s) = false ->
  score p s =
  if Player.eqb (turn s) p
  then maximum (map (fun mv => score p (after_move s mv)) (possible_moves s))
  else minimum (map (fun mv => score p (after_move s mv)) (possible_moves s)).
Proof.
  intros Hs Hover.
  destruct (not_over_move_left s Hs Hover) as [n Hn].
  assert (Hch : map (fun mv => score p (after_move s mv)) (possible_moves s)
                = map (fun mv => score_within n p (after_move s mv)) (possible_moves s)).
  { apply map_ext_in. intros mv Hin. unfold score.
    destruct (after_move_consistent s mv Hs Hin) as (_ & _ & He).
    rewrite Hn in He. now injection He as ->. }
  rewrite Hch. unfold score. rewrite Hn. cbn [score_within].
  destruct (is_game_over s) as [over winner]. cbn [fst] in Hover. subst over.
  reflexivity.
Qed.

(** ** What [minimax] computes *)

Lemma Player_eqb_eq (p q : Player) : Player.eqb p q = true <-> p = q.
Proof. destruct p, q; cbn; split; intros H; try reflexivity; discriminate H. Qed.

(** At a terminal position [minimax] returns the score and touches
    nothing. *)
Lemma minimax_terminal (fuel : nat) (l : loc) (d : Z) (w : World) (s : GameContext) :
  ctxs w !! l = Some s -> fst (is_game_over s) = true ->
  minimax (S fuel) l d w = (Ok (score (player (bot w)) s), w).
Proof.
  intros Hl Hover. cbn [minimax]. unfold bind at 1. unfold read at 1. rewrite Hl.
  unfold bind at 1. unfold get_bot at 1.
  destruct (is_game_over s) as [over winner] eqn:Hov.
  cbn [fst] in Hover. subst over.
  rewrite (score_terminal _ _ _ Hov). reflexivity.
Qed.

(** One level of the search, given that the calls on the children return
    their scores: the call returns the score of the position, and when it
    runs at [max_depth] on a position where the bot is to move, it leaves
    in [move] the first legal move of maximal score. *)
Lemma minimax_step (fuel : nat)
      (Hchild : forall s l d w,
          consistent s -> ctxs w !! l = Some s ->
          (empty_cells (board s) < fuel)%nat ->
          fst (minimax fuel l d w) = Ok (score (player (bot w)) s))
      (s : GameContext) (l : loc) (d : Z) (w : World) :
  consistent s -> ctxs w !! l = Some s ->
  fst (is_game_over s) = false ->
  (empty_cells (board s) < S fuel)%nat ->
  wp (minimax (S fuel) l d)
     (fun r w' =>
        r = Ok (score (player (bot w)) s) /\
        (d = max_depth (bot w) -> turn s = player (bot w) ->
         exists m, move (bot w') = Some m /\
                   first_maximal (fun mv => score (player (bot w)) (after_move s mv))
                                 (possible_moves s) m)) w.
Proof.
  intros Hs Hl Hover Hfuel.
  set (p := player (bot w)).
  set (g := fun mv => score p (after_move s mv)).
  assert (Hne : possible_moves s <> []).
  { destruct (not_over_move_left s Hs Hover) as [n Hn].
    rewrite <- (possible_moves_length s (proj1 Hs)) in Hn.
    intros E. rewrite E in Hn. discriminate. }
  cbn [minimax].
  apply wp_bind, wp_read; [intros c Hc | intros Hn; rewrite Hn in Hl; discriminate].
  rewrite Hl in Hc. injection Hc as <-.
  apply wp_bind, wp_get_bot.
  destruct (is_game_over s) as [over winner] eqn:Hov.
  cbn [fst] in Hover. subst over. rewrite terminal_score_cases.
  apply wp_bind, wp_read; [intros c Hc | intros Hn; rewrite Hn in Hl; discriminate].
  rewrite Hl in Hc. injection Hc as <-.
  apply wp_bind. eapply wp_mono.
  { apply (wp_for_each_map (fun w1 => grows d w w1) _ g); [|apply grows_refl].
    intros mv w1 Hin H1. apply wp_body.
    eapply wp_mono; [apply (copy_update_grows d)|].
    intros r w2 [H2 Hr].
    pose proof (extends_lookup _ _ _ _ (proj1 H1) Hl) as Hl1.
    destruct (after_move_consistent s mv Hs Hin) as (Hup & Hs' & He').
    destruct (Hr s Hl1) as [-> Hctx]; [now rewrite Hup|].
    fold (after_move s mv) in Hctx.
    unfold wp. split.
    - rewrite (Hchild (after_move s mv)).
      + unfold g, p. destruct H1 as [(_ & <- & _) _], H2 as [(_ & <- & _) _].
        reflexivity.
      + exact Hs'.
      + rewrite Hctx, lookup_app_r by lia.
        now replace (length (ctxs w1) - length (ctxs w1))%nat with 0%nat by lia.
      + lia.
    - eapply grows_trans; [exact H1|].
      eapply grows_trans; [exact H2|]. apply grows_deeper, minimax_grows. }
  intros r w1 [-> H1]. cbn beta in H1.
  pose proof (extends_lookup _ _ _ _ (proj1 H1) Hl) as Hl1.
  assert (Hp1 : player (bot w1) = p) by apply H1.
  assert (Hd1 : max_depth (bot w1) = max_depth (bot w)) by apply H1.
  apply wp_bind, wp_read; [intros c Hc | intros Hn; rewrite Hn in Hl1; discriminate].
  rewrite Hl1 in Hc. injection Hc as <-.
  apply wp_bind, wp_get_bot. rewrite Hp1.
  pose proof (score_unfold p s Hs) as Hsc. rewrite Hov in Hsc.
  specialize (Hsc eq_refl). fold g in Hsc.
  apply wp_bind.
  destruct (Player.eqb (turn s) p) eqn:Ht.
  - destruct (py_max_maximum g (possible_moves s) Hne) as [m Hmax].
    rewrite Hmax. apply wp_ret.
    apply wp_bind, wp_get_bot. apply wp_bind. cbn [fst snd]. rewrite Hd1.
    destruct (d =? max_depth (bot w)) eqn:Hd.
    + unfold wp at 1. cbn [fst snd set_move]. apply wp_ret.
      split; [now rewrite Hsc|].
      intros _ _. exists m. cbn [bot move]. split; [reflexivity|].
      apply (py_max_first_maximal g _ _ _ Hmax).
    + apply wp_ret, wp_ret. split; [now rewrite Hsc|].
      intros E. apply Z.eqb_neq in Hd. contradiction.
  - destruct (py_min_minimum g (possible_moves s) Hne) as [m Hmin].
    rewrite Hmin. apply wp_ret.
    assert (Hturn : turn s <> p).
    { intros E. apply Player_eqb_eq in E. rewrite E in Ht. discriminate. }
    apply wp_bind, wp_get_bot. apply wp_bind. cbn [fst snd]. rewrite Hd1.
    destruct (d =? max_depth (bot w)).
    + destruct (last (possible_moves s)).
      * unfold wp at 1. cbn [fst snd set_move]. apply wp_ret.
        split; [now rewrite Hsc|]. intros _ E. contradiction.
      * apply wp_ret, wp_ret.
        split; [now rewrite Hsc|]. intros _ E. contradiction.
    + apply wp_ret, wp_ret. split; [now rewrite Hsc|]. intros _ E. contradiction.
Qed.

(** With enough fuel [minimax] returns the score of any consistent
    position. *)
Lemma minimax_score (fuel : nat) :
  forall s l d w,
    consistent s -> ctxs w !! l = Some s ->
    (empty_cells (board s) < fuel)%nat ->
    fst (minimax fuel l d w) = Ok (score (player (bot w)) s).
Proof.
  induction fuel as [|fuel IH]; intros s l d w Hs Hl Hfuel; [lia|].
  destruct (fst (is_game_over s)) eqn:Hover.
  - now rewrite (minimax_terminal fuel l d w s Hl Hover).
  - apply (minimax_step fuel IH s l d w Hs Hl Hover Hfuel).
Qed.

Lemma empty_cells_le_9 (b : Board) : board_3x3 b -> (empty_cells b < 10)%nat.
Proof.
  intros H3. pose proof (empty_cells_occupied b H3) as He.
  assert (0 <= occupied b) by (unfold occupied; lia). lia.
Qed.

(** The equations of the score, free of any bound: on every consistent
    position [score] is the terminal value, or the maximum or minimum of
    the scores of the positions one legal move away. *)
Lemma score_equation (p : Player) (s : GameContext) :
  consistent s ->
  score p s =
  match is_game_over s with
  | (true, Some w) => if Player.eqb w p then 10 else -10
  | (true, None) => 0
  | (false, _) =>
      if Player.eqb (turn s) p
      then maximum (map (fun mv => score p (after_move s mv)) (possible_moves s))
      else minimum (map (fun mv => score p (after_move s mv)) (possible_moves s))
  end.
Proof.
  intros Hs. destruct (is_game_over s) as [[] winner] eqn:Hov.
  - pose proof (score_terminal p s winner Hov) as H.
    rewrite terminal_score_cases in H. destruct winner; now injection H.
  - apply score_unfold; [exact Hs | now rewrite Hov].
Qed.

(** C10. On every context whose [moves] equals its number of marks,
    [minimax] returns a score for every [depth]: a bound of one more than
    the number of empty cells (at most ten) on the nesting of calls is never
    reached; every recursive call is on a position with strictly fewer
    empty cells; and the outcome does not depend on [depth]. *)
Theorem minimax_terminates (s : GameContext) (l : loc) (w : World) (depth : Z) :
  consistent s -> ctxs w !! l = Some s ->
  (exists v, forall fuel, (empty_cells (board s) < fuel)%nat ->
                          fst (minimax fuel l depth w) = Ok v) /\
  (empty_cells (board s) < 10)%nat /\
  (forall mv, In mv (possible_moves s) ->
              (empty_cells (board (after_move s mv)) < empty_cells (board s))%nat) /\
  (forall fuel depth', (empty_cells (board s) < fuel)%nat ->
                       fst (minimax fuel l depth' w) = fst (minimax fuel l depth w)).
Proof.
  intros Hs Hl. split; [|split; [|split]].
  - exists (score (player (bot w)) s). intros fuel Hfuel.
    now apply minimax_score.
  - apply empty_cells_le_9, Hs.
  - intros mv Hin. destruct (after_move_consistent s mv Hs Hin) as (_ & _ & He). lia.
  - intros fuel depth' Hfuel.
    now rewrite !(minimax_score fuel s l _ w Hs Hl Hfuel).
Qed.

(** The theorem for a position with two empty cells, searched at depth 3. *)
Lemma minimax_terminates_witness :
  let s := {| moves := 7; board := [[X_;O_;X_];[O_;O_;X_];[O_;__;__]];
              turn := Player.X |} in
  let w := {| ctxs := [s]; bot := MinimaxBot_init Player.O 8 |} in
  consistent s /\ ctxs w !! 0%nat = Some s /\
  exists v, forall fuel, (empty_cells (board s) < fuel)%nat ->
                         fst (minimax fuel 0%nat 3 w) = Ok v.
Proof.
  cbn zeta.
  assert (Hs : consistent {| moves := 7; board := [[X_;O_;X_];[O_;O_;X_];[O_;__;__]];
                             turn := Player.X |}).
  { split; [apply cells_board_3x3 | reflexivity]. }
  split; [exact Hs|]. split; [reflexivity|].
  apply (minimax_terminates _ 0%nat
           {| ctxs := [ {| moves := 7; board := [[X_;O_;X_];[O_;O_;X_];[O_;__;__]];
                           turn := Player.X |} ];
              bot := MinimaxBot_init Player.O 8 |} 3 Hs).
  reflexivity.
Defined.

(** ** [predict_move] *)

Lemma first_maximal_In {A} (f : A -> Z) (l : list A) (m : A) :
  first_maximal f l m -> In m l.
Proof.
  intros (pre & post & -> & _). apply in_or_app. right. now left.
Qed.

(** C1, as the code has it.  For every consistent context (3x3 board,
    [moves] equal to the number of marks) on which the game is not over and
    whose turn is the bot's player, [predict_move] returns the first move,
    in [possible_moves] order, whose minimax score is maximal; [minimax]
    returns the minimax score of the position; and that score is [+10] at a
    terminal position won by the bot's player, [-10] at one won by the
    opponent, [0] at a draw, and elsewhere the maximum of the children's
    scores when the turn is the bot's player and the minimum otherwise. *)
Theorem predict_move_first_best (s : GameContext) (l : loc) (w : World) (fuel : nat) :
  consistent s -> ctxs w !! l = Some s ->
  fst (is_game_over s) = false ->
  turn s = player (bot w) ->
  (empty_cells (board s) < fuel)%nat ->
  let p := player (bot w) in
  (exists m, fst (predict_move fuel l w) = Ok m /\
             In m (possible_moves s) /\
             first_maximal (fun mv => score p (after_move s mv)) (possible_moves s) m) /\
  (forall d, fst (minimax fuel l d w) = Ok (score p s)) /\
  (forall s', consistent s' ->
     score p s' =
     match is_game_over s' with
     | (true, Some winner) => if Player.eqb winner p then 10 else -10
     | (true, None) => 0
     | (false, _) =>
         if Player.eqb (turn s') p
         then maximum (map (fun mv => score p (after_move s' mv)) (possible_moves s'))
         else minimum (map (fun mv => score p (after_move s' mv)) (possible_moves s'))
     end).
Proof.
  intros Hs Hl Hover Hturn Hfuel p. split; [|split].
  - destruct fuel as [|fuel]; [lia|].
    pose proof (minimax_step fuel (minimax_score fuel) s l (max_depth (bot w)) w
                             Hs Hl Hover Hfuel) as Hstep.
    unfold wp in Hstep. destruct Hstep as [Hr Hm].
    destruct (Hm eq_refl Hturn) as (m & Hmove & Hfirst).
    exists m. split; [|split].
    + unfold predict_move, bind, get_bot.
      destruct (minimax (S fuel) l (max_depth (bot w)) w) as [r w1].
      cbn [fst snd] in *. subst r. rewrite Hmove. reflexivity.
    + eapply first_maximal_In, Hfirst.
    + exact Hfirst.
  - intros d. now apply minimax_score.
  - intros s' Hs'. now apply score_equation.
Qed.

(** The theorem on a position with three empty cells where the bot [O] is
    to move. *)
Lemma predict_move_first_best_witness :
  let s := {| moves := 6; board := [[X_;O_;X_];[O_;X_;O_];[__;__;__]];
              turn := Player.O |} in
  let w := {| ctxs := [s]; bot := MinimaxBot_init Player.O 8 |} in
  consistent s /\
  exists m, fst (predict_move 10 0%nat w) = Ok m /\ In m (possible_moves s).
Proof.
  cbn zeta.
  assert (Hs : consistent {| moves := 6; board := [[X_;O_;X_];[O_;X_;O_];[__;__;__]];
                             turn := Player.O |}).
  { split; [apply cells_board_3x3 | reflexivity]. }
  split; [exact Hs|].
  destruct (predict_move_first_best _ 0%nat
              {| ctxs := [ {| moves := 6; board := [[X_;O_;X_];[O_;X_;O_];[__;__;__]];
                              turn := Player.O |} ];
                 bot := MinimaxBot_init Player.O 8 |} 10 Hs)
    as [(m & Hm & Hin & _) _].
  - reflexivity.
  - reflexivity.
  - reflexivity.
  - vm_compute. lia.
  - exists m. auto.
Defined.

(** C1, as stated, fails.  On a board [O] has already won, with empty cells
    left and [X], the bot's player, to move, [minimax] returns at once
    without choosing, and [predict_move] on a new bot raises
    [AttributeError] although four moves are possible.  And on a context whose
    counter disagrees with its board (ten moves counted, eight marks, one
    empty cell) the search reaches a full board that is not over and [min]
    of no scores raises [ValueError]. *)
Lemma predict_move_not_total :
  let won := {| moves := 5; board := [[O_;O_;O_];[X_;X_;__];[__;__;__]];
                turn := Player.X |} in
  let odd := {| moves := 10; board := [[X_;O_;X_];[X_;O_;O_];[O_;X_;__]];
                turn := Player.O |} in
  (turn won = Player.X /\
   possible_moves won = [(1,2);(2,0);(2,1);(2,2)] /\
   fst (predict_move 10 0%nat {| ctxs := [won]; bot := MinimaxBot_init Player.X 8 |})
   = Raise AttributeError) /\
  (turn odd = Player.O /\
   possible_moves odd = [(2,2)] /\
   fst (predict_move 10 0%nat {| ctxs := [odd]; bot := MinimaxBot_init Player.O 8 |})
   = Raise ValueError).
Proof.
  cbn zeta. repeat split; vm_compute; reflexivity.
Qed.

(** C8, as the code has it.  On a context (3x3 board) where the game is
    over, [predict_move] raises no error of its own: [minimax] returns the
    terminal score without assigning [move], so [predict_move] returns the
    move left by an earlier call, and raises [AttributeError] when the bot
    has never chosen one; the store, and with it the context, is left as it
    was. *)
Theorem predict_move_terminal (s : GameContext) (l : loc) (w : World) (fuel : nat) :
  ctxs w !! l = Some s ->
  board_3x3 (board s) ->
  fst (is_game_over s) = true ->
  predict_move (S fuel) l w =
  (match move (bot w) with
   | Some m => Ok m
   | None => Raise AttributeError
   end, w).
Proof.
  intros Hl _ Hover. unfold predict_move, bind, get_bot.
  rewrite (minimax_terminal fuel l _ w s Hl Hover).
  destruct (move (bot w)); reflexivity.
Qed.

(** The theorem on a drawn board, for a bot that chose [(2, 2)] before. *)
Lemma predict_move_terminal_witness :
  let s := {| moves := 9; board := [[X_;O_;X_];[X_;O_;O_];[O_;X_;O_]];
              turn := Player.X |} in
  let w := {| ctxs := [s];
              bot := {| player := Player.O; max_depth := 8; move := Some (2, 2) |} |} in
  board_3x3 (board s) /\
  fst (is_game_over s) = true /\
  predict_move 10 0%nat w = (Ok (2, 2), w).
Proof.
  cbn zeta. split; [apply cells_board_3x3|]. split; [reflexivity|].
  apply (predict_move_terminal
           {| moves := 9; board := [[X_;O_;X_];[X_;O_;O_];[O_;X_;O_]];
              turn := Player.X |} 0%nat
           {| ctxs := [ {| moves := 9; board := [[X_;O_;X_];[X_;O_;O_];[O_;X_;O_]];
                           turn := Player.X |} ];
              bot := {| player := Player.O; max_depth := 8; move := Some (2, 2) |} |} 9).
  - reflexivity.
  - apply cells_board_3x3.
  - reflexivity.
Defined.

(** C8, as stated, fails.  The bot [O] is asked for a move with one cell
    left and answers [(2, 2)]; the move is played and the board is full, a
    draw.  Asked again on that board, which has no legal move,
    [predict_move] fails with nothing: it returns [(2, 2)] once more. *)
Lemma predict_move_on_full_board :
  let s := {| moves := 8; board := [[X_;O_;X_];[X_;O_;O_];[O_;X_;__]];
              turn := Player.O |} in
  let w0 := {| ctxs := [s]; bot := MinimaxBot_init Player.O 8 |} in
  let w1 := snd (predict_move 10 0%nat w0) in
  let w2 := snd (call_update 0%nat 2 2 w1) in
  fst (predict_move 10 0%nat w0) = Ok (2, 2) /\
  (exists full, ctxs w2 !! 0%nat = Some full /\
                is_game_over full = (true, None) /\
                possible_moves full = []) /\
  fst (predict_move 10 0%nat w2) = Ok (2, 2).
Proof.
  cbn zeta. split; [vm_compute; reflexivity|]. split.
  - eexists. split; [vm_compute; reflexivity|]. split; vm_compute; reflexivity.
  - vm_compute. reflexivity.
Qed.

(** ** [reset_game] *)

Lemma lookup_snoc {A} (l : list A) (x : A) : (l ++ [x]) !! length l = Some x.
Proof.
  rewrite lookup_app_r by lia.
  now replace (length l - length l)%nat with 0%nat by lia.
Qed.

Lemma insert_snoc {A} (l : list A) (x y : A) : <[length l := y]> (l ++ [x]) = l ++ [y].
Proof.
  rewrite insert_app_r_alt by lia.
  now replace (length l - length l)%nat with 0%nat by lia.
Qed.

(** C9, as the code has it.  After every reset the human's player is
    [Player(randint(0, 1))], each of the two players arising from exactly
    one of the two draws; the new context has [moves] 0 or 1.  It is 1
    exactly when the human is assigned [X], the mark that moves second (a
    new context has [O] to move): the controller has then placed the bot's
    mark [O] on the random cell and the turn is the human's.  It is 0 when
    the human is assigned [O], and the human then moves first. *)
Theorem reset_game_opening (rand_player rand_row rand_col : Z) (old : list GameContext) :
  0 <= rand_player <= 1 -> 0 <= rand_row <= 2 -> 0 <= rand_col <= 2 ->
  exists app s,
    reset_game rand_player rand_row rand_col old = Ok app /\
    ctxs (world app) !! ctx app = Some s /\
    Player.of_int rand_player = Some (user_player app) /\
    (forall p, exists r, 0 <= r <= 1 /\ Player.of_int r = Some p /\
                         forall r', Player.of_int r' = Some p -> r' = r) /\
    bot (world app) = MinimaxBot_init (Player.other (user_player app)) 8 /\
    (moves s = 0 \/ moves s = 1) /\
    (moves s = 1 <-> user_player app = Player.X) /\
    (moves s = 1 <-> user_player app <> turn GameContext_init) /\
    (user_player app = Player.X ->
     update rand_row rand_col GameContext_init = (Ok tt, s) /\
     cell_at (board s) rand_row rand_col = Some (Some (player (bot (world app)))) /\
     occupied (board s) = 1 /\
     turn s = user_player app) /\
    (user_player app = Player.O ->
     s = GameContext_init /\ turn s = user_player app).
Proof.
  intros Hp Hr Hc.
  assert (Huniform : forall p, exists r, 0 <= r <= 1 /\ Player.of_int r = Some p /\
                                         forall r', Player.of_int r' = Some p -> r' = r).
  { intros []; [exists 0 | exists 1]; (split; [lia|]); (split; [reflexivity|]);
      intros r'; unfold Player.of_int;
      destruct (r' =? 0) eqn:E0; try discriminate;
      destruct (r' =? 1) eqn:E1; try discriminate; intros _; lia. }
  assert (Hp' : rand_player = 0 \/ rand_player = 1) by lia.
  destruct Hp' as [-> | ->].
  - assert (Hin : In (rand_row, rand_col) (possible_moves GameContext_init)).
    { apply possible_moves_complete.
      - apply in_range3_coordinates; unfold in_range3; lia.
      - assert (Hr' : rand_row = 0 \/ rand_row = 1 \/ rand_row = 2) by lia.
        assert (Hc' : rand_col = 0 \/ rand_col = 1 \/ rand_col = 2) by lia.
        destruct Hr' as [-> | [-> | ->]], Hc' as [-> | [-> | ->]]; reflexivity. }
    destruct (update_legal GameContext_init rand_row rand_col
                           (cells_board_3x3 _ _ _ _ _ _ _ _ _) Hin)
      as (s & Hup & _ & Hm & Ht & Ho & Hcell & _).
    unfold reset_game. cbn [Player.of_int Z.eqb Player.eqb].
    rewrite (call_update_at
               {| ctxs := old ++ [GameContext_init];
                  bot := MinimaxBot_init (Player.other Player.X) 8 |}
               (length old) _ _ _ _ _ (lookup_snoc old GameContext_init) Hup).
    cbn [ctxs bot]. rewrite insert_snoc.
    eexists. exists s. split; [reflexivity|]. cbn [world ctx user_player ctxs bot].
    split; [apply lookup_snoc|]. split; [reflexivity|].
    split; [exact Huniform|]. split; [reflexivity|].
    cbn [moves GameContext_init turn] in Hm, Ht.
    split; [right; exact Hm|]. split; [tauto|].
    split; [split; [discriminate | intros _; exact Hm]|].
    split; [|discriminate].
    intros _. split; [exact Hup|]. split; [exact Hcell|].
    split; [rewrite Ho; reflexivity | exact Ht].
  - unfold reset_game. cbn [Player.of_int Z.eqb Player.eqb].
    eexists. exists GameContext_init. split; [reflexivity|].
    cbn [world ctx user_player ctxs bot].
    split; [apply lookup_snoc|]. split; [reflexivity|].
    split; [exact Huniform|]. split; [reflexivity|].
    split; [left; reflexivity|].
    split; [split; discriminate|].
    split; [split; [discriminate | intros H; exfalso; apply H; reflexivity]|].
    split; [discriminate|]. intros _. split; reflexivity.
Qed.

(** The theorem for the draws [0] (the human plays [X]) and [(1, 1)], on an
    empty store. *)
Lemma reset_game_opening_witness :
  exists app s,
    reset_game 0 1 1 [] = Ok app /\
    ctxs (world app) !! ctx app = Some s /\
    user_player app = Player.X /\ moves s = 1.
Proof.
  destruct (reset_game_opening 0 1 1 []) as (app & s & Hreset & Hl & Hu & _ & _ & _ & Hm & _);
    [lia | lia | lia |].
  exists app, s. split; [exact Hreset|]. split; [exact Hl|].
  assert (Hx : user_player app = Player.X) by (now injection Hu).
  split; [exact Hx|]. apply Hm, Hx.
Defined.

(** C9, as stated, fails.  A new context has [O] to move.  When the human
    draws [O], the mark that moves first, no opening move is made and
    [moves] is 0; when the human draws [X], [moves] is 1 and the mark on the
    board is [O], the bot's. *)
Lemma reset_game_first_mover :
  turn GameContext_init = Player.O /\
  reset_game 1 0 0 []
  = Ok {| world := {| ctxs := [GameContext_init]; bot := MinimaxBot_init Player.X 8 |};
          ctx := 0%nat; user_player := Player.O; accept_user_input := true |} /\
  moves GameContext_init = 0 /\
  reset_game 0 1 1 []
  = Ok {| world := {| ctxs := [ {| moves := 1;
                                   board := [[__;__;__];[__;O_;__];[__;__;__]];
                                   turn := Player.X |} ];
                      bot := MinimaxBot_init Player.O 8 |};
          ctx := 0%nat; user_player := Player.X; accept_user_input := true |}.
Proof. repeat split. Qed.

(** * Further properties of the code *)

(** ** [filled_equal] *)

Lemma cell_eqb_eq (a b : Cell) : cell_eqb a b = true <-> a = b.
Proof.
  destruct a as [[]|], b as [[]|]; cbn; split; intros H;
    first [reflexivity | discriminate H].
Qed.

Lemma filled_equal_loop_true (x0 : Cell) (items : list Cell) :
  filled_equal_loop x0 items = true <->
  Forall (fun c => is_mark c = true /\ c = x0) items.
Proof.
  induction items as [|c items IH]; cbn [filled_equal_loop].
  - split; [constructor | reflexivity].
  - destruct c as [q|].
    + destruct (cell_eqb (Some q) x0) eqn:E.
      * apply cell_eqb_eq in E. rewrite IH. split.
        -- intros H. constructor; [split; [reflexivity | exact E] | exact H].
        -- intros H. now inversion H.
      * split; [discriminate|]. intros H. inversion H as [|? ? [_ Hq] _]; subst.
        rewrite (proj2 (cell_eqb_eq _ _) eq_refl) in E. discriminate.
    + split; [discriminate|]. intros H. inversion H as [|? ? [Hm _] _].
      discriminate Hm.
Qed.

(** [filled_equal] accepts a list exactly when all its items are the mark
    of one player; the empty list is accepted. *)
Theorem filled_equal_iff (x : list Cell) :
  filled_equal x = true <-> exists p, Forall (fun c => c = Some p) x.
Proof.
  unfold filled_equal. rewrite filled_equal_loop_true.
  destruct x as [|c x]; cbn [hd].
  - split; [intros _; exists Player.X; constructor | constructor].
  - split.
    + intros H. inversion H as [|? ? [Hm _] _]; subst.
      destruct c as [p|]; [|discriminate Hm]. exists p.
      eapply List.Forall_impl; [|exact H]. cbn beta. now intros a [_ ->].
    + intros [p H]. inversion H as [|? ? Hc _]; subst.
      eapply List.Forall_impl; [|exact H]. cbn beta. intros a ->. now split.
Qed.

(** ** [possible_moves] *)

Lemma NoDup_coordinates : List.NoDup coordinates.
Proof.
  rewrite coordinates_eq.
  repeat (constructor; [cbn [In]; intros H;
                        repeat (destruct H as [H|H]; [discriminate H|]);
                        exact H|]).
  constructor.
Qed.

Lemma in_coordinates_range (row col : Z) :
  In (row, col) coordinates <-> 0 <= row <= 2 /\ 0 <= col <= 2.
Proof.
  split.
  - rewrite coordinates_eq. cbn [In]. intros H.
    repeat (destruct H as [H|H]; [injection H as <- <-; lia|]). contradiction.
  - intros [Hr Hc]. apply in_range3_coordinates; unfold in_range3; lia.
Qed.

(** The legal moves of a 3x3 board are exactly its empty cells, each listed
    once, in the row-by-row order of the coordinates; with the cells that
    hold a mark they make up the nine cells. *)
Theorem possible_moves_partition (s : GameContext) :
  board_3x3 (board s) ->
  (forall row col,
      In (row, col) (possible_moves s) <->
      (0 <= row <= 2 /\ 0 <= col <= 2) /\ cell_at (board s) row col = Some None) /\
  List.NoDup (possible_moves s) /\
  sublist (possible_moves s) coordinates /\
  Z.of_nat (length (possible_moves s)) + occupied (board s) = 9.
Proof.
  intros H3. split; [|split; [|split]].
  - intros row col. rewrite <- in_coordinates_range. split.
    + apply possible_moves_cases.
    + intros [Hc He]. now apply possible_moves_complete.
  - unfold possible_moves. apply List.NoDup_filter, NoDup_coordinates.
  - unfold possible_moves. generalize coordinates.
    induction l as [|x l IH]; cbn [List.filter]; [constructor|].
    destruct (is_empty_at (board s) x); now constructor.
  - rewrite (possible_moves_length s H3).
    pose proof (empty_cells_occupied _ H3). lia.
Qed.

(** The theorem on a board with four marks. *)
Lemma possible_moves_partition_witness :
  let s := {| moves := 4; board := [[X_;X_;__];[O_;O_;__];[__;__;__]];
              turn := Player.O |} in
  List.NoDup (possible_moves s) /\
  Z.of_nat (length (possible_moves s)) + occupied (board s) = 9.
Proof.
  cbn zeta.
  destruct (possible_moves_partition
              {| moves := 4; board := [[X_;X_;__];[O_;O_;__];[__;__;__]];
                 turn := Player.O |} (cells_board_3x3 _ _ _ _ _ _ _ _ _))
    as (_ & Hnd & _ & Hlen).
  split; [exact Hnd | exact Hlen].
Defined.

(** ** [update] and Python indices *)

Lemma py_index_3 (i : Z) :
  py_index 3 i =
  if (0 <=? i) && (i <? 3) then Some (Z.to_nat i)
  else if (-3 <=? i) && (i <? 0) then Some (Z.to_nat (3 + i))
  else None.
Proof. reflexivity. Qed.

(** With a row or a column outside [-3 .. 2], [update] raises [IndexError];
    the context it leaves behind has [moves] incremented and the board and
    the turn as they were. *)
Theorem update_index_error (s : GameContext) (row col : Z) :
  board_3x3 (board s) ->
  row < -3 \/ 2 < row \/ col < -3 \/ 2 < col ->
  update row col s =
  (Raise IndexError, {| moves := moves s + 1; board := board s; turn := turn s |}).
Proof.
  intros H3 Hout. cells s H3. unfold update, py_setitem.
  cbn -[Z.add py_index lookup insert]. rewrite !py_index_3.
  assert (Hcases : (row < -3 \/ 2 < row) \/
                   ((row = 0 \/ row = 1 \/ row = 2 \/
                     row = -3 \/ row = -2 \/ row = -1) /\
                    (col < -3 \/ 2 < col))) by lia.
  destruct Hcases as [Hrow | [Hrow Hcol]].
  - destruct ((0 <=? row) && (row <? 3)) eqn:E1; [lia|].
    destruct ((-3 <=? row) && (row <? 0)) eqn:E2; [lia|]. reflexivity.
  - assert (E1 : (0 <=? col) && (col <? 3) = false) by lia.
    assert (E2 : (-3 <=? col) && (col <? 0) = false) by lia.
    destruct Hrow as [-> | [-> | [-> | [-> | [-> | ->]]]]];
      cbv -[py_index]; rewrite py_index_3, E1, E2; reflexivity.
Qed.

(** The theorem for the row index 3 on the empty board. *)
Lemma update_index_error_witness :
  update 3 0 GameContext_init =
  (Raise IndexError,
   {| moves := 1; board := board GameContext_init; turn := Player.O |}).
Proof.
  apply (update_index_error GameContext_init 3 0).
  - apply cells_board_3x3.
  - right. left. lia.
Defined.

(** A negative index in [-3 .. -1] is not refused: it names the cell three
    further on, so [update(row - 3, col - 3)] and the mixed forms do what
    [update(row, col)] does. *)
Theorem update_negative_wraps (s : GameContext) (row col : Z) :
  board_3x3 (board s) ->
  0 <= row <= 2 -> 0 <= col <= 2 ->
  update (row - 3) col s = update row col s /\
  update row (col - 3) s = update row col s /\
  update (row - 3) (col - 3) s = update row col s.
Proof.
  intros H3 Hr Hc. cells s H3.
  assert (Hrow : row = 0 \/ row = 1 \/ row = 2) by lia.
  assert (Hcol : col = 0 \/ col = 1 \/ col = 2) by lia.
  destruct Hrow as [-> | [-> | ->]], Hcol as [-> | [-> | ->]];
    repeat split; reflexivity.
Qed.

(** The theorem for the last cell, addressed as [(-1, -1)]. *)
Lemma update_negative_wraps_witness :
  update (2 - 3) (2 - 3) GameContext_init = update 2 2 GameContext_init.
Proof.
  apply (update_negative_wraps GameContext_init 2 2).
  - apply cells_board_3x3.
  - lia.
  - lia.
Defined.

(** ** Turns alternate *)

Lemma count_mark_cells (p : Player) (a0 a1 a2 b0 b1 b2 c0 c1 c2 : Cell) :
  count_mark p [[a0; a1; a2]; [b0; b1; b2]; [c0; c1; c2]] =
  mark_is p a0 + (mark_is p a1 + (mark_is p a2 +
  (mark_is p b0 + (mark_is p b1 + (mark_is p b2 +
  (mark_is p c0 + (mark_is p c1 + (mark_is p c2 + 0)))))))).
Proof. reflexivity. Qed.

Lemma mark_is_range (p : Player) (c : Cell) : 0 <= mark_is p c <= 1.
Proof. unfold mark_is. destruct (cell_eqb c (Some p)); lia. Qed.

Lemma mark_is_Some (p t : Player) :
  mark_is p (Some t) = if Player.eqb p t then 1 else 0.
Proof. destruct p, t; reflexivity. Qed.

Lemma mark_is_None (p : Player) : mark_is p None = 0.
Proof. reflexivity. Qed.

(** A legal move adds one mark, of the player whose turn it was. *)
Lemma update_count_mark (s s' : GameContext) (row col : Z) (p : Player) :
  board_3x3 (board s) ->
  In (row, col) (possible_moves s) ->
  update row col s = (Ok tt, s') ->
  count_mark p (board s') =
  count_mark p (board s) + (if Player.eqb p (turn s) then 1 else 0).
Proof.
  intros H3 Hin Hup. cells s H3. move_cases Hin;
    cbv -[Z.add] in Hup; injection Hup as <-;
    cbn -[Z.add count_mark]; rewrite !count_mark_cells;
    rewrite mark_is_Some, mark_is_None; lia.
Qed.

Lemma in_turn_init : in_turn GameContext_init.
Proof. repeat split; reflexivity || (cbn; lia). Qed.

(** A legal move on a consistent context keeps the players in turn. *)
Lemma in_turn_update (s s' : GameContext) (row col : Z) :
  consistent s -> in_turn s ->
  In (row, col) (possible_moves s) ->
  update row col s = (Ok tt, s') ->
  in_turn s'.
Proof.
  intros [H3 Hcount] (Hm & Ht & HO & HX) Hin Hup.
  pose proof (update_count_mark s s' row col Player.O H3 Hin Hup) as HO'.
  pose proof (update_count_mark s s' row col Player.X H3 Hin Hup) as HX'.
  destruct (update_legal s row col H3 Hin) as (s1 & Hup1 & H3' & Hm' & Ht' & Ho' & _).
  rewrite Hup in Hup1. injection Hup1 as <-.
  assert (Hle : moves s' <= 9).
  { pose proof (empty_cells_occupied _ H3'). rewrite Hm', Hcount, <- Ho'. lia. }
  unfold in_turn. split; [lia|].
  rewrite HO', HX', HO, HX, Ht', Ht, Hm'.
  replace (moves s + 1) with (Z.succ (moves s)) by lia.
  rewrite Z.even_succ, <- Z.negb_even.
  destruct (Z.even (moves s)) eqn:E; cbn [negb Player.other Player.eqb].
  - apply Z.even_spec in E. destruct E as [k Hk].
    split; [reflexivity|]. split; Z.to_euclidean_division_equations; lia.
  - assert (Ho : Z.odd (moves s) = true) by (now rewrite <- Z.negb_even, E).
    apply Z.odd_spec in Ho. destruct Ho as [k Hk].
    split; [reflexivity|]. split; Z.to_euclidean_division_equations; lia.
Qed.

(** In every state reached from the empty board by moves on empty cells the
    game has lasted at most nine moves and the players have moved in turn,
    [O] first: the turn is [O]'s exactly when [moves] is even, and the
    board holds one [O] for every two moves begun and one [X] for every two
    moves completed. *)
Theorem turns_alternate (s : GameContext) :
  reachable s ->
  0 <= moves s <= 9 /\
  turn s = (if Z.even (moves s) then Player.O else Player.X) /\
  count_mark Player.O (board s) = (moves s + 1) / 2 /\
  count_mark Player.X (board s) = moves s / 2.
Proof.
  intros Hr. change (in_turn s).
  induction Hr as [|s row col s' Hs IH Hin Hup].
  - apply in_turn_init.
  - apply (in_turn_update s s' row col); try assumption.
    apply reachable_consistent, Hs.
Qed.

(** The theorem after the opening move [(1, 1)]. *)
Lemma turns_alternate_witness :
  let s := {| moves := 1; board := [[__;__;__];[__;O_;__];[__;__;__]];
              turn := Player.X |} in
  reachable s /\ turn s = Player.X /\ count_mark Player.O (board s) = 1.
Proof.
  cbn zeta.
  assert (Hr : reachable {| moves := 1; board := [[__;__;__];[__;O_;__];[__;__;__]];
                            turn := Player.X |}).
  { apply (reachable_move GameContext_init 1 1).
    - apply reachable_init.
    - vm_compute. auto 10.
    - reflexivity. }
  destruct (turns_alternate _ Hr) as (_ & Ht & HO & _).
  split; [exact Hr|]. split; [exact Ht | exact HO].
Defined.

(** ** Who wins, and when *)

(** A complete line holds three marks of its player. *)
Lemma complete_for_count (b : Board) (w : Player) (line : list (Z * Z)) :
  board_3x3 b -> In line all_lines -> complete_for b w line ->
  3 <= count_mark w b.
Proof.
  intros H3 Hline Hw.
  destruct (board_3x3_cells b H3)
    as (a0 & a1 & a2 & b0 & b1 & b2 & c0 & c1 & c2 & ->).
  rewrite count_mark_cells.
  pose proof (mark_is_range w a0). pose proof (mark_is_range w a1).
  pose proof (mark_is_range w a2). pose proof (mark_is_range w b0).
  pose proof (mark_is_range w b1). pose proof (mark_is_range w b2).
  pose proof (mark_is_range w c0). pose proof (mark_is_range w c1).
  pose proof (mark_is_range w c2).
  assert (Hone : mark_is w (Some w) = 1).
  { unfold mark_is. now rewrite (proj2 (cell_eqb_eq (Some w) (Some w)) eq_refl). }
  cbv in Hline.
  repeat (destruct Hline as [Hline|Hline];
          [subst line;
           inversion Hw as [|? ? Hp Hw1]; subst;
           inversion Hw1 as [|? ? Hq Hw2]; subst;
           inversion Hw2 as [|? ? Hr _]; subst;
           cbv in Hp, Hq, Hr;
           injection Hp as ->; injection Hq as ->; injection Hr as ->;
           rewrite !Hone; lia|]).
  contradiction.
Qed.

(** In a game played on empty cells and stopped when over, a winner
    reported by [is_game_over] is the player who made the last move, and
    no game is won before the fifth move. *)
Theorem winner_moved_last (s : GameContext) (w : Player) :
  reachable_play s ->
  is_game_over s = (true, Some w) ->
  w = Player.other (turn s) /\ 5 <= moves s.
Proof.
  intros Hs Hov.
  pose proof (reachable_play_reachable s Hs) as Hr.
  pose proof (reachable_consistent s Hr) as [H3 _].
  destruct (is_game_over_cases s H3) as [(w' & line & Hline & Hw & Hov')|[_ Hov']];
    rewrite Hov in Hov'.
  - injection Hov' as ->.
    pose proof (reachable_play_lines s Hs w' line Hline Hw) as Hlast.
    split; [exact Hlast|].
    pose proof (complete_for_count _ _ _ H3 Hline Hw) as H3m.
    assert (Hturns : in_turn s).
    { clear - Hr. induction Hr as [|s row col s' Hs IH Hin Hup].
      - apply in_turn_init.
      - apply (in_turn_update s s' row col); try assumption.
        apply reachable_consistent, Hs. }
    destruct Hturns as (Hm & Ht & HO & HX).
    rewrite Hlast, Ht in H3m.
    destruct (Z.even (moves s)); cbn [Player.other] in H3m.
    + rewrite HX in H3m.
      pose proof (Z.mul_div_le (moves s) 2). lia.
    + rewrite HO in H3m.
      pose proof (Z.mul_div_le (moves s + 1) 2). lia.
  - destruct (moves s =? 9); discriminate Hov'.
Qed.

(** The theorem on the shortest win: [O] completes the top row with the
    fifth move. *)
Lemma winner_moved_last_witness :
  let s := {| moves := 5; board := [[O_;O_;O_];[X_;X_;__];[__;__;__]];
              turn := Player.X |} in
  reachable_play s /\ is_game_over s = (true, O_) /\
  Player.O = Player.other (turn s) /\ 5 <= moves s.
Proof.
  cbn zeta.
  assert (Hr : reachable_play
                 {| moves := 5; board := [[O_;O_;O_];[X_;X_;__];[__;__;__]];
                    turn := Player.X |}).
  { apply (run_game_reachable [(0,0);(1,0);(0,1);(1,1);(0,2)] GameContext_init).
    - apply reachable_play_init.
    - reflexivity. }
  split; [exact Hr|]. split; [reflexivity|].
  apply (winner_moved_last _ Player.O Hr). reflexivity.
Defined.

(** On a consistent context [is_game_over] reports a draw exactly when the
    board is full and no line is complete; and while it reports that the
    game is not over, a legal move is left. *)
Theorem draw_iff_full_board (s : GameContext) :
  consistent s ->
  (is_game_over s = (true, None) <->
   possible_moves s = [] /\
   forall w line, In line all_lines -> ~ complete_for (board s) w line) /\
  (fst (is_game_over s) = false -> possible_moves s <> []).
Proof.
  intros Hs. pose proof Hs as [H3 Hm].
  pose proof (possible_moves_length s H3) as Hlen.
  pose proof (empty_cells_occupied _ H3) as He.
  assert (Hfull : moves s = 9 <-> possible_moves s = []).
  { split.
    - intros H9. apply length_zero_iff_nil. lia.
    - intros Hnil. rewrite Hnil in Hlen. cbn [length] in Hlen. lia. }
  split; [split|].
  - intros Hov.
    destruct (is_game_over_cases s H3) as [(w & line & _ & _ & Hov')|[Hno Hov']];
      rewrite Hov in Hov'; [discriminate|].
    split; [|exact Hno]. apply Hfull.
    destruct (moves s =? 9) eqn:E; [now apply Z.eqb_eq | discriminate].
  - intros [Hnil Hno].
    destruct (is_game_over_cases s H3) as [(w & line & Hline & Hw & _)|[_ ->]].
    + exfalso. eapply Hno; eassumption.
    + apply Hfull in Hnil. rewrite Hnil. reflexivity.
  - intros Hover Hnil. apply Hfull in Hnil.
    destruct (is_game_over_cases s H3) as [(w & line & _ & _ & Hov')|[_ Hov']];
      rewrite Hov' in Hover; [discriminate|].
    rewrite Hnil in Hover. discriminate.
Qed.

(** The theorem on a drawn board. *)
Lemma draw_iff_full_board_witness :
  let s := {| moves := 9; board := [[X_;O_;X_];[X_;O_;O_];[O_;X_;O_]];
              turn := Player.X |} in
  consistent s /\ possible_moves s = [].
Proof.
  cbn zeta.
  assert (Hs : consistent {| moves := 9; board := [[X_;O_;X_];[X_;O_;O_];[O_;X_;O_]];
                             turn := Player.X |}).
  { split; [apply cells_board_3x3 | reflexivity]. }
  split; [exact Hs|].
  apply (proj1 (draw_iff_full_board _ Hs)). reflexivity.
Defined.

(** ** RandomBot *)

(** A move [RandomBot.predict_move] returns is a legal one: on a 3x3 board
    and with draws that [randint(0, 2)] can make, it is one of the
    [possible_moves], whatever room the call stack has. *)
Theorem RandomBot_predict_move_legal (stack : nat) (draws : list Z)
        (ctx : GameContext) (mv : Z * Z) :
  board_3x3 (board ctx) ->
  Forall (fun d => 0 <= d <= 2) draws ->
  RandomBot_predict_move stack draws ctx = Ok mv ->
  In mv (possible_moves ctx).
Proof.
  intros H3. revert draws.
  induction stack as [|stack IH]; intros draws Hd Hres;
    cbn [RandomBot_predict_move] in Hres; [discriminate Hres|].
  destruct draws as [|row [|col rest]]; try discriminate Hres.
  inversion Hd as [|? ? Hrow Hd1]; subst.
  inversion Hd1 as [|? ? Hcol Hd2]; subst.
  destruct (cell_at (board ctx) row col) as [[p|]|] eqn:Hcell;
    try discriminate Hres.
  - apply (IH rest); [exact Hd2 | exact Hres].
  - injection Hres as <-. apply possible_moves_complete; [|exact Hcell].
    now apply in_coordinates_range.
Qed.

(** The theorem for draws that first hit the mark at [(1, 1)] and then the
    empty cell [(0, 2)]. *)
Lemma RandomBot_predict_move_legal_witness :
  let s := {| moves := 1; board := [[__;__;__];[__;O_;__];[__;__;__]];
              turn := Player.X |} in
  RandomBot_predict_move 1000 [1; 1; 0; 2] s = Ok (0, 2) /\
  In (0, 2) (possible_moves s).
Proof.
  cbn zeta. split; [reflexivity|].
  apply (RandomBot_predict_move_legal 1000 [1; 1; 0; 2]).
  - apply cells_board_3x3.
  - repeat constructor; lia.
  - reflexivity.
Defined.

(** On a board with no empty cell [RandomBot.predict_move] never returns a
    move: every draw names a cell that holds a mark, so every call retries,
    and with a pair of draws for each call the stack allows the recursion
    ends in [RecursionError]. *)
Theorem RandomBot_predict_move_full_board (stack : nat) (draws : list Z)
        (ctx : GameContext) :
  board_3x3 (board ctx) ->
  possible_moves ctx = [] ->
  Forall (fun d => 0 <= d <= 2) draws ->
  (forall mv, RandomBot_predict_move stack draws ctx <> Ok mv) /\
  ((2 * stack <= length draws)%nat ->
   RandomBot_predict_move stack draws ctx = Raise RecursionError).
Proof.
  intros H3 Hfull. revert draws.
  induction stack as [|stack IH]; intros draws Hd; cbn [RandomBot_predict_move].
  - split; [discriminate | reflexivity].
  - destruct draws as [|row [|col rest]].
    + split; [discriminate | cbn [length]; lia].
    + split; [discriminate | cbn [length]; lia].
    + inversion Hd as [|? ? Hrow Hd1]; subst.
      inversion Hd1 as [|? ? Hcol Hd2]; subst.
      assert (Hc : In (row, col) coordinates) by now apply in_coordinates_range.
      pose proof (cell_at_coordinates (board ctx) (row, col) H3 Hc) as Hcell.
      cbn [fst snd] in Hcell. rewrite Hcell.
      destruct (cell_or_none (board ctx) row col) as [p|].
      * destruct (IH rest Hd2) as [Hnever Hlimit].
        split; [exact Hnever|]. intros Hlen. apply Hlimit. cbn [length] in Hlen. lia.
      * exfalso.
        pose proof (possible_moves_complete ctx row col Hc Hcell) as Hin.
        rewrite Hfull in Hin. exact Hin.
Qed.

(** The theorem on a drawn board, with room for three calls and three pairs
    of draws. *)
Lemma RandomBot_predict_move_full_board_witness :
  RandomBot_predict_move 3 [0; 0; 1; 2; 2; 1]
    {| moves := 9; board := [[X_;O_;X_];[X_;O_;O_];[O_;X_;O_]]; turn := Player.X |}
  = Raise RecursionError.
Proof.
  apply RandomBot_predict_move_full_board.
  - apply cells_board_3x3.
  - reflexivity.
  - repeat constructor; lia.
  - cbn. lia.
Defined.

(** [RandomBot.predict_move] returns the first cell drawn that is empty,
    as long as the misses before it fit the call stack: after fewer draws
    of cells holding a mark than the stack allows calls, the draw of an
    empty cell is the answer, whatever draws would follow; after as many
    misses as the stack allows calls, or more, the answer is
    [RecursionError] instead. *)
Theorem RandomBot_predict_move_first_empty
        (stack : nat) (misses : list (Z * Z)) (row col : Z) (rest : list Z)
        (ctx : GameContext) :
  Forall (fun ij => exists p, cell_at (board ctx) (fst ij) (snd ij) = Some (Some p))
         misses ->
  cell_at (board ctx) row col = Some None ->
  ((length misses < stack)%nat ->
   RandomBot_predict_move stack (draws_of misses ++ row :: col :: rest) ctx
   = Ok (row, col)) /\
  ((stack <= length misses)%nat ->
   RandomBot_predict_move stack (draws_of misses ++ row :: col :: rest) ctx
   = Raise RecursionError).
Proof.
  intros Hmiss Hcell. revert stack.
  induction misses as [|[i j] misses IH]; intros stack;
    cbn [draws_of flat_map app fst snd length].
  - split.
    + intros Hlt. destruct stack as [|stack]; [lia|].
      cbn [RandomBot_predict_move]. now rewrite Hcell.
    + intros Hle. destruct stack as [|stack]; [reflexivity | lia].
  - inversion Hmiss as [|? ? [p Hp] Hrest]; subst. cbn [fst snd] in Hp.
    destruct stack as [|stack].
    + split; [lia | reflexivity].
    + cbn [RandomBot_predict_move]. rewrite Hp.
      destruct (IH Hrest stack) as [Hok Hlimit].
      split; intros H; [apply Hok | apply Hlimit]; lia.
Qed.

(** The theorem for two misses followed by the empty cell [(2, 2)]: found
    with room for three calls, not with room for two. *)
Lemma RandomBot_predict_move_first_empty_witness :
  let s := {| moves := 2; board := [[O_;__;__];[__;X_;__];[__;__;__]];
              turn := Player.O |} in
  RandomBot_predict_move 3 [0; 0; 1; 1; 2; 2; 0; 1] s = Ok (2, 2) /\
  RandomBot_predict_move 2 [0; 0; 1; 1; 2; 2; 0; 1] s = Raise RecursionError.
Proof.
  cbn zeta.
  assert (Hmiss : Forall (fun ij : Z * Z =>
                            exists p,
                              cell_at [[O_;__;__];[__;X_;__];[__;__;__]] (fst ij) (snd ij)
                              = Some (Some p)) [(0, 0); (1, 1)]).
  { repeat constructor; eexists; reflexivity. }
  split.
  - apply (RandomBot_predict_move_first_empty 3 [(0, 0); (1, 1)] 2 2 [0; 1]
             {| moves := 2; board := [[O_;__;__];[__;X_;__];[__;__;__]];
                turn := Player.O |} Hmiss eq_refl).
    cbn. lia.
  - apply (RandomBot_predict_move_first_empty 2 [(0, 0); (1, 1)] 2 2 [0; 1]
             {| moves := 2; board := [[O_;__;__];[__;X_;__];[__;__;__]];
                turn := Player.O |} Hmiss eq_refl).
    cbn. lia.
Defined.

(** ** More on the search *)

Lemma fold_left_max_spec (l : list Z) :
  forall x, (x <= fold_left Z.max l x) /\
            (forall y, In y l -> y <= fold_left Z.max l x) /\
            (fold_left Z.max l x = x \/ In (fold_left Z.max l x) l).
Proof.
  induction l as [|a l IH]; intros x; cbn [fold_left In].
  - split; [lia|]. split; [intros y []|now left].
  - destruct (IH (Z.max x a)) as (H1 & H2 & H3).
    split; [lia|]. split.
    + intros y [<-|Hy]; [lia | now apply H2].
    + destruct H3 as [H3|H3]; [|now right; right].
      rewrite H3. destruct (Z.max_spec x a) as [[_ ->]|[_ ->]]; auto.
Qed.

Lemma fold_left_min_spec (l : list Z) :
  forall x, (fold_left Z.min l x <= x) /\
            (forall y, In y l -> fold_left Z.min l x <= y) /\
            (fold_left Z.min l x = x \/ In (fold_left Z.min l x) l).
Proof.
  induction l as [|a l IH]; intros x; cbn [fold_left In].
  - split; [lia|]. split; [intros y []|now left].
  - destruct (IH (Z.min x a)) as (H1 & H2 & H3).
    split; [lia|]. split.
    + intros y [<-|Hy]; [lia | now apply H2].
    + destruct H3 as [H3|H3]; [|now right; right].
      rewrite H3. destruct (Z.min_spec x a) as [[_ ->]|[_ ->]]; auto.
Qed.

(** [maximum] is an item of a non-empty list and bounds all of them. *)
Lemma maximum_spec (l : list Z) :
  l <> [] -> In (maximum l) l /\ forall y, In y l -> y <= maximum l.
Proof.
  destruct l as [|x l]; [congruence|]. intros _. cbn [maximum].
  destruct (fold_left_max_spec l x) as (H1 & H2 & H3). split.
  - destruct H3 as [->|H3]; [now left | now right].
  - intros y [<-|Hy]; auto.
Qed.

Lemma minimum_spec (l : list Z) :
  l <> [] -> In (minimum l) l /\ forall y, In y l -> minimum l <= y.
Proof.
  destruct l as [|x l]; [congruence|]. intros _. cbn [minimum].
  destruct (fold_left_min_spec l x) as (H1 & H2 & H3). split.
  - destruct H3 as [->|H3]; [now left | now right].
  - intros y [<-|Hy]; auto.
Qed.

Lemma first_maximal_maximum {A} (g : A -> Z) (l : list A) (m : A) :
  first_maximal g l m -> g m = maximum (map g l).
Proof.
  intros (pre & post & -> & Hpre & Hpost).
  assert (Hne : map g (pre ++ m :: post) <> []).
  { rewrite map_app. cbn [map]. now destruct (map g pre). }
  destruct (maximum_spec _ Hne) as [Hin Hub].
  apply Z.le_antisymm.
  - apply Hub, in_map, in_or_app. right. now left.
  - apply in_map_iff in Hin. destruct Hin as (x & <- & Hx).
    apply in_app_or in Hx. rewrite List.Forall_forall in Hpre, Hpost.
    destruct Hx as [Hx|[<-|Hx]]; [specialize (Hpre x Hx) | | specialize (Hpost x Hx)];
      lia.
Qed.

Lemma maximum_opp (l : list Z) : maximum (map Z.opp l) = - minimum l.
Proof.
  destruct l as [|x l]; [reflexivity|]. cbn [map maximum minimum].
  revert x. induction l as [|a l IH]; intros x; cbn [map fold_left]; [reflexivity|].
  rewrite <- Z.opp_min_distr. apply IH.
Qed.

Lemma minimum_opp (l : list Z) : minimum (map Z.opp l) = - maximum l.
Proof.
  destruct l as [|x l]; [reflexivity|]. cbn [map maximum minimum].
  revert x. induction l as [|a l IH]; intros x; cbn [map fold_left]; [reflexivity|].
  rewrite <- Z.opp_max_distr. apply IH.
Qed.

Lemma Player_eqb_other (p q : Player) :
  Player.eqb q (Player.other p) = negb (Player.eqb q p).
Proof. destruct p, q; reflexivity. Qed.

(** What is won for one player is lost for the other. *)
Lemma score_within_other (n : nat) (p : Player) :
  forall s, score_within n (Player.other p) s = - score_within n p s.
Proof.
  induction n as [|n IH]; intros s; cbn [score_within];
    destruct (is_game_over s) as [[] [w|]]; try reflexivity;
    rewrite ?Player_eqb_other;
    try (destruct (Player.eqb w p); reflexivity).
  - destruct (Player.eqb (turn s) p); cbn [negb];
      rewrite (map_ext _ (fun mv => - score_within n p (after_move s mv)))
        by (intros; apply IH);
      rewrite <- (map_map (fun mv => score_within n p (after_move s mv)) Z.opp);
      [apply minimum_opp | apply maximum_opp].
  - destruct (Player.eqb (turn s) p); cbn [negb];
      rewrite (map_ext _ (fun mv => - score_within n p (after_move s mv)))
        by (intros; apply IH);
      rewrite <- (map_map (fun mv => score_within n p (after_move s mv)) Z.opp);
      [apply minimum_opp | apply maximum_opp].
Qed.

Lemma values_max_min (b : bool) (l : list Z) :
  (forall y, In y l -> In y [-10; 0; 10]) ->
  In (if b then maximum l else minimum l) [-10; 0; 10].
Proof.
  intros Hl. destruct l as [|x l'] eqn:El.
  - destruct b; cbn; auto.
  - rewrite <- El in *. assert (Hne : l <> []) by (rewrite El; discriminate).
    destruct b; apply Hl; [apply maximum_spec | apply minimum_spec]; exact Hne.
Qed.

Lemma score_within_values (n : nat) (p : Player) :
  forall s, In (score_within n p s) [-10; 0; 10].
Proof.
  induction n as [|n IH]; intros s; cbn [score_within];
    destruct (is_game_over s) as [[] [w|]].
  1, 5: destruct (Player.eqb w p); cbn; auto.
  1, 2, 3, 4: cbn; auto.
  all: apply values_max_min; intros y Hy; apply in_map_iff in Hy;
    destruct Hy as (mv & <- & _); apply IH.
Qed.

(** [minimax] is zero-sum and three-valued: on a consistent context it
    returns [-10], [0] or [10], and a bot that plays the other mark gets the
    opposite number for the same position. *)
Theorem minimax_zero_sum (s : GameContext) (l : loc) (d d' : Z) (w w' : World)
        (fuel : nat) (v : Z) :
  consistent s ->
  ctxs w !! l = Some s -> ctxs w' !! l = Some s ->
  player (bot w') = Player.other (player (bot w)) ->
  (empty_cells (board s) < fuel)%nat ->
  fst (minimax fuel l d w) = Ok v ->
  (v = -10 \/ v = 0 \/ v = 10) /\
  fst (minimax fuel l d' w') = Ok (- v).
Proof.
  intros Hs Hl Hl' Hp Hfuel Hv.
  rewrite (minimax_score fuel s l d w Hs Hl Hfuel) in Hv. injection Hv as <-.
  split.
  - pose proof (score_within_values (empty_cells (board s)) (player (bot w)) s) as H.
    unfold score. cbn [In] in H. intuition auto.
  - rewrite (minimax_score fuel s l d' w' Hs Hl' Hfuel), Hp.
    unfold score. now rewrite score_within_other.
Qed.

(** The theorem on a position [O] wins by force, seen by a bot playing [O]
    and by one playing [X]. *)
Lemma minimax_zero_sum_witness :
  let s := {| moves := 6; board := [[O_;X_;O_];[X_;O_;X_];[__;__;__]];
              turn := Player.O |} in
  fst (minimax 10 0%nat 8 {| ctxs := [s]; bot := MinimaxBot_init Player.O 8 |}) = Ok 10 /\
  fst (minimax 10 0%nat 8 {| ctxs := [s]; bot := MinimaxBot_init Player.X 8 |})
  = Ok (- 10).
Proof.
  cbn zeta. split; [vm_compute; reflexivity|].
  apply (minimax_zero_sum
           {| moves := 6; board := [[O_;X_;O_];[X_;O_;X_];[__;__;__]];
              turn := Player.O |} 0%nat 8 8
           {| ctxs := [ {| moves := 6; board := [[O_;X_;O_];[X_;O_;X_];[__;__;__]];
                           turn := Player.O |} ];
              bot := MinimaxBot_init Player.O 8 |}
           {| ctxs := [ {| moves := 6; board := [[O_;X_;O_];[X_;O_;X_];[__;__;__]];
                           turn := Player.O |} ];
              bot := MinimaxBot_init Player.X 8 |} 10 10).
  - split; [apply cells_board_3x3 | reflexivity].
  - reflexivity.
  - reflexivity.
  - reflexivity.
  - vm_compute. lia.
  - vm_compute. reflexivity.
Defined.

(** One level of the search at the bot's [max_depth], on a position that is
    not over: the score is returned, [move] is set to the first legal move
    of maximal score when the bot is to move and to the last legal move
    otherwise, and the store only grows. *)
Lemma minimax_root (fuel : nat) (s : GameContext) (l : loc) (w : World) :
  consistent s -> ctxs w !! l = Some s ->
  fst (is_game_over s) = false ->
  (empty_cells (board s) < S fuel)%nat ->
  wp (minimax (S fuel) l (max_depth (bot w)))
     (fun r w' =>
        r = Ok (score (player (bot w)) s) /\
        extends w w' /\
        exists m, move (bot w') = Some m /\
                  (turn s = player (bot w) ->
                   first_maximal (fun mv => score (player (bot w)) (after_move s mv))
                                 (possible_moves s) m) /\
                  (turn s <> player (bot w) -> last (possible_moves s) = Some m)) w.
Proof.
  intros Hs Hl Hover Hfuel.
  set (d := max_depth (bot w)).
  set (p := player (bot w)).
  set (g := fun mv => score p (after_move s mv)).
  assert (Hne : possible_moves s <> []).
  { destruct (not_over_move_left s Hs Hover) as [n Hn].
    rewrite <- (possible_moves_length s (proj1 Hs)) in Hn.
    intros E. rewrite E in Hn. discriminate. }
  cbn [minimax].
  apply wp_bind, wp_read; [intros c Hc | intros Hn; rewrite Hn in Hl; discriminate].
  rewrite Hl in Hc. injection Hc as <-.
  apply wp_bind, wp_get_bot.
  destruct (is_game_over s) as [over winner] eqn:Hov.
  cbn [fst] in Hover. subst over. rewrite terminal_score_cases.
  apply wp_bind, wp_read; [intros c Hc | intros Hn; rewrite Hn in Hl; discriminate].
  rewrite Hl in Hc. injection Hc as <-.
  apply wp_bind. eapply wp_mono.
  { apply (wp_for_each_map (fun w1 => grows d w w1) _ g); [|apply grows_refl].
    intros mv w1 Hin H1. apply wp_body.
    eapply wp_mono; [apply (copy_update_grows d)|].
    intros r w2 [H2 Hr].
    pose proof (extends_lookup _ _ _ _ (proj1 H1) Hl) as Hl1.
    destruct (after_move_consistent s mv Hs Hin) as (Hup & Hs' & He').
    destruct (Hr s Hl1) as [-> Hctx]; [now rewrite Hup|].
    fold (after_move s mv) in Hctx.
    unfold wp. split.
    - rewrite (minimax_score fuel (after_move s mv)).
      + unfold g, p. destruct H1 as [(_ & <- & _) _], H2 as [(_ & <- & _) _].
        reflexivity.
      + exact Hs'.
      + rewrite Hctx, lookup_app_r by lia.
        now replace (length (ctxs w1) - length (ctxs w1))%nat with 0%nat by lia.
      + lia.
    - eapply grows_trans; [exact H1|].
      eapply grows_trans; [exact H2|]. apply grows_deeper, minimax_grows. }
  intros r w1 [-> H1]. cbn beta in H1.
  pose proof (extends_lookup _ _ _ _ (proj1 H1) Hl) as Hl1.
  assert (Hp1 : player (bot w1) = p) by apply H1.
  assert (Hd1 : max_depth (bot w1) = d) by apply H1.
  apply wp_bind, wp_read; [intros c Hc | intros Hn; rewrite Hn in Hl1; discriminate].
  rewrite Hl1 in Hc. injection Hc as <-.
  apply wp_bind, wp_get_bot. rewrite Hp1.
  pose proof (score_unfold p s Hs) as Hsc. rewrite Hov in Hsc.
  specialize (Hsc eq_refl). fold g in Hsc.
  assert (Hext : forall mv, extends w (snd (set_move mv w1))).
  { intros mv. destruct H1 as [(He & Hp & Hd) _]. split; [exact He|].
    split; [exact Hp | exact Hd]. }
  apply wp_bind.
  destruct (Player.eqb (turn s) p) eqn:Ht.
  - destruct (py_max_maximum g (possible_moves s) Hne) as [m Hmax].
    rewrite Hmax. apply wp_ret.
    apply wp_bind, wp_get_bot. apply wp_bind. cbn [fst snd]. rewrite Hd1.
    rewrite Z.eqb_refl.
    unfold wp at 1. cbn [fst snd set_move]. apply wp_ret.
    split; [now rewrite Hsc|]. split; [apply (Hext m)|].
    exists m. cbn [bot move]. split; [reflexivity|]. split.
    + intros _. apply (py_max_first_maximal g _ _ _ Hmax).
    + intros Hne'. apply Player_eqb_eq in Ht. contradiction.
  - destruct (py_min_minimum g (possible_moves s) Hne) as [m Hmin].
    rewrite Hmin. apply wp_ret.
    assert (Hturn : turn s <> p).
    { intros E. apply Player_eqb_eq in E. rewrite E in Ht. discriminate. }
    apply wp_bind, wp_get_bot. apply wp_bind. cbn [fst snd]. rewrite Hd1.
    rewrite Z.eqb_refl.
    destruct (last (possible_moves s)) as [ml|] eqn:Hlast.
    + unfold wp at 1. cbn [fst snd set_move]. apply wp_ret.
      split; [now rewrite Hsc|]. split; [apply (Hext ml)|].
      exists ml. cbn [bot move]. split; [reflexivity|]. split.
      * intros E. contradiction.
      * intros _. reflexivity.
    + exfalso. apply last_None in Hlast. contradiction.
Qed.

(** [predict_move] on a consistent position that is not over. *)
Lemma predict_move_result (fuel : nat) (s : GameContext) (l : loc) (w : World) :
  consistent s -> ctxs w !! l = Some s ->
  fst (is_game_over s) = false ->
  (empty_cells (board s) < fuel)%nat ->
  exists m w',
    predict_move fuel l w = (Ok m, w') /\
    extends w w' /\
    move (bot w') = Some m /\
    In m (possible_moves s) /\
    (turn s = player (bot w) ->
     first_maximal (fun mv => score (player (bot w)) (after_move s mv))
                   (possible_moves s) m) /\
    (turn s <> player (bot w) -> last (possible_moves s) = Some m).
Proof.
  intros Hs Hl Hover Hfuel.
  destruct fuel as [|fuel]; [lia|].
  pose proof (minimax_root fuel s l w Hs Hl Hover Hfuel) as Hroot.
  unfold wp in Hroot. destruct Hroot as (Hr & Hext & m & Hmove & Hmax & Hmin).
  unfold predict_move, bind, get_bot.
  destruct (minimax (S fuel) l (max_depth (bot w)) w) as [r w1].
  cbn [fst snd] in *. subst r. rewrite Hmove.
  exists m, w1. split; [reflexivity|]. split; [exact Hext|].
  split; [exact Hmove|]. split; [|split; assumption].
  destruct (Player.eqb (turn s) (player (bot w))) eqn:Ht.
  - apply Player_eqb_eq in Ht. eapply first_maximal_In, Hmax, Ht.
  - assert (Hne : turn s <> player (bot w)).
    { intros E. apply Player_eqb_eq in E. rewrite E in Ht. discriminate. }
    specialize (Hmin Hne). apply last_Some in Hmin. destruct Hmin as [l' ->].
    apply in_or_app. right. now left.
Qed.

(** On every consistent context on which the game is not over,
    [MinimaxBot.predict_move] returns one of the [possible_moves], keeps it
    in [move], and leaves every context of the store as it was. *)
Theorem predict_move_legal (fuel : nat) (s : GameContext) (l : loc) (w : World) :
  consistent s -> ctxs w !! l = Some s ->
  fst (is_game_over s) = false ->
  (empty_cells (board s) < fuel)%nat ->
  exists m,
    fst (predict_move fuel l w) = Ok m /\
    In m (possible_moves s) /\
    move (bot (snd (predict_move fuel l w))) = Some m /\
    (forall l' s', ctxs w !! l' = Some s' ->
                   ctxs (snd (predict_move fuel l w)) !! l' = Some s').
Proof.
  intros Hs Hl Hover Hfuel.
  destruct (predict_move_result fuel s l w Hs Hl Hover Hfuel)
    as (m & w' & Hpm & Hext & Hmove & Hin & _).
  exists m. rewrite Hpm. cbn [fst snd].
  split; [reflexivity|]. split; [exact Hin|]. split; [exact Hmove|].
  intros l' s' Hl'. eapply extends_lookup; eassumption.
Qed.

(** The theorem on a position with one legal move. *)
Lemma predict_move_legal_witness :
  let s := {| moves := 8; board := [[X_;O_;X_];[X_;O_;O_];[O_;X_;__]];
              turn := Player.O |} in
  exists m, fst (predict_move 10 0%nat
                   {| ctxs := [s]; bot := MinimaxBot_init Player.O 8 |}) = Ok m /\
            In m (possible_moves s).
Proof.
  cbn zeta.
  destruct (predict_move_legal 10
              {| moves := 8; board := [[X_;O_;X_];[X_;O_;O_];[O_;X_;__]];
                 turn := Player.O |} 0%nat
              {| ctxs := [ {| moves := 8; board := [[X_;O_;X_];[X_;O_;O_];[O_;X_;__]];
                              turn := Player.O |} ];
                 bot := MinimaxBot_init Player.O 8 |})
    as (m & Hm & Hin & _).
  - split; [apply cells_board_3x3 | reflexivity].
  - reflexivity.
  - reflexivity.
  - vm_compute. lia.
  - exists m. auto.
Defined.

(** Asked for a move when it is the opponent's turn, [MinimaxBot] does not
    minimise: [min] yields the score only, and the move returned is the last
    of the [possible_moves], whatever the scores. *)
Theorem predict_move_opponent_turn (fuel : nat) (s : GameContext) (l : loc) (w : World) :
  consistent s -> ctxs w !! l = Some s ->
  fst (is_game_over s) = false ->
  turn s <> player (bot w) ->
  (empty_cells (board s) < fuel)%nat ->
  exists m, last (possible_moves s) = Some m /\
            fst (predict_move fuel l w) = Ok m.
Proof.
  intros Hs Hl Hover Hturn Hfuel.
  destruct (predict_move_result fuel s l w Hs Hl Hover Hfuel)
    as (m & w' & Hpm & _ & _ & _ & _ & Hlast).
  exists m. rewrite Hpm. split; [apply Hlast, Hturn | reflexivity].
Qed.

(** The theorem on a position where [X] is to move and would win at
    [(2, 0)]: the bot [O] answers [(2, 2)], the last legal move. *)
Lemma predict_move_opponent_turn_witness :
  let s := {| moves := 5; board := [[O_;O_;X_];[O_;X_;__];[__;__;__]];
              turn := Player.X |} in
  last (possible_moves s) = Some (2, 2) /\
  fst (predict_move 10 0%nat {| ctxs := [s]; bot := MinimaxBot_init Player.O 8 |})
  = Ok (2, 2).
Proof.
  cbn zeta.
  destruct (predict_move_opponent_turn 10
              {| moves := 5; board := [[O_;O_;X_];[O_;X_;__];[__;__;__]];
                 turn := Player.X |} 0%nat
              {| ctxs := [ {| moves := 5; board := [[O_;O_;X_];[O_;X_;__];[__;__;__]];
                              turn := Player.X |} ];
                 bot := MinimaxBot_init Player.O 8 |})
    as (m & Hlast & Hm).
  - split; [apply cells_board_3x3 | reflexivity].
  - reflexivity.
  - reflexivity.
  - discriminate.
  - vm_compute. lia.
  - assert (E : m = (2, 2)) by (vm_compute in Hlast; now injection Hlast).
    subst m. split; [reflexivity | exact Hm].
Defined.

(** ** The controller keeps the game sound *)

Lemma other_ne (p : Player) : p <> Player.other p.
Proof. destruct p; discriminate. Qed.

(** A move of the opponent cannot lower the bot's score below the score of
    the position it was made in. *)
Lemma score_after_opponent_move (p : Player) (s : GameContext) (mv : Z * Z) :
  consistent s -> fst (is_game_over s) = false -> turn s <> p ->
  In mv (possible_moves s) ->
  score p s <= score p (after_move s mv).
Proof.
  intros Hs Hover Hturn Hin.
  rewrite (score_unfold p s Hs Hover).
  destruct (Player.eqb (turn s) p) eqn:E.
  - apply Player_eqb_eq in E. contradiction.
  - apply minimum_spec.
    + intros Hnil. apply map_eq_nil in Hnil. rewrite Hnil in Hin. exact Hin.
    + apply (in_map (fun mv => score p (after_move s mv))), Hin.
Qed.

(** The move of the bot keeps the score of the position it was made in. *)
Lemma score_after_best_move (p : Player) (s : GameContext) (m : Z * Z) :
  consistent s -> fst (is_game_over s) = false -> turn s = p ->
  first_maximal (fun mv => score p (after_move s mv)) (possible_moves s) m ->
  score p (after_move s m) = score p s.
Proof.
  intros Hs Hover Hturn Hmax.
  rewrite (score_unfold p s Hs Hover).
  rewrite (proj2 (Player_eqb_eq _ _) Hturn).
  apply (first_maximal_maximum _ _ _ Hmax).
Qed.

(** A legal move made while the game is on leads to a state of play, with
    the turn passed on. *)
Lemma after_move_play (s : GameContext) (mv : Z * Z) :
  reachable_play s -> fst (is_game_over s) = false ->
  In mv (possible_moves s) ->
  update (fst mv) (snd mv) s = (Ok tt, after_move s mv) /\
  reachable_play (after_move s mv) /\
  turn (after_move s mv) = Player.other (turn s).
Proof.
  intros Hs Hover Hin.
  pose proof (reachable_consistent s (reachable_play_reachable s Hs)) as Hc.
  destruct (after_move_consistent s mv Hc Hin) as (Hup & _ & _).
  split; [exact Hup|]. destruct mv as [row col]. cbn [fst snd] in *. split.
  - eapply reachable_play_move; eassumption.
  - destruct (update_legal s row col (proj1 Hc) Hin) as (s' & Hup' & _ & _ & Ht & _).
    rewrite Hup in Hup'. injection Hup' as <-. exact Ht.
Qed.

(** What [play_round] computes once the human's move is made. *)
Lemma play_round_eq (fuel : nat) (l : loc) (row col : Z) (w : World)
      (s s1 : GameContext) :
  ctxs w !! l = Some s -> update row col s = (Ok tt, s1) ->
  play_round fuel l row col w =
  let w1 := {| ctxs := <[l := s1]> (ctxs w); bot := bot w |} in
  if fst (is_game_over s1) then (Ok false, w1)
  else
    match predict_move fuel l w1 with
    | (Ok mv, w2) =>
        match call_update l (fst mv) (snd mv) w2 with
        | (Ok _, w3) =>
            match ctxs w3 !! l with
            | Some c => (Ok (negb (fst (is_game_over c))), w3)
            | None => (Raise Dangling, w3)
            end
        | (Raise e, w3) => (Raise e, w3)
        end
    | (Raise e, w2) => (Raise e, w2)
    end.
Proof.
  intros Hl Hup. pose proof (lookup_lt_Some _ _ _ Hl) as Hlt.
  unfold play_round. unfold bind at 1.
  rewrite (call_update_at w l s s1 row col (Ok tt) Hl Hup).
  unfold bind at 1. unfold read at 1. cbn [ctxs].
  rewrite list_lookup_insert_eq by exact Hlt. cbn zeta.
  destruct (fst (is_game_over s1)); [reflexivity|].
  unfold bind at 1.
  destruct (predict_move fuel l
              {| ctxs := <[l := s1]> (ctxs w); bot := bot w |}) as [[mv|e] w2];
    [|reflexivity].
  unfold bind at 1.
  destruct (call_update l (fst mv) (snd mv) w2) as [[[]|e] w3]; [|reflexivity].
  unfold bind, read.
  destruct (ctxs w3 !! l) as [c|]; [|reflexivity].
  destruct (fst (is_game_over c)); reflexivity.
Qed.

(** The first position of every game is not lost for the bot: the empty
    board when the bot plays [X], and the board after any opening move
    when the bot plays [O]. *)
Lemma score_init_X : score Player.X GameContext_init = 0.
Proof. vm_cast_no_check (@eq_refl Z 0). Qed.

Lemma score_openings_O :
  forallb (fun mv => 0 <=? score Player.O (after_move GameContext_init mv)) coordinates
  = true.
Proof. vm_cast_no_check (@eq_refl bool true). Qed.

Lemma opening_facts (mv : Z * Z) :
  In mv coordinates ->
  In mv (possible_moves GameContext_init) /\
  fst (is_game_over (after_move GameContext_init mv)) = false /\
  0 <= score Player.O (after_move GameContext_init mv).
Proof.
  intros Hin. split; [|split].
  - destruct mv as [row col]. apply possible_moves_complete; [exact Hin|].
    rewrite coordinates_eq in Hin. cbn [In] in Hin.
    repeat (destruct Hin as [Hin|Hin]; [injection Hin as <- <-; reflexivity|]).
    contradiction.
  - rewrite coordinates_eq in Hin. cbn [In] in Hin.
    repeat (destruct Hin as [Hin|Hin]; [subst mv; reflexivity|]). contradiction.
  - pose proof score_openings_O as H. rewrite forallb_forall in H.
    apply Z.leb_le, H, Hin.
Qed.

(** [reset_game] when the human draws [X]: the bot opens with [O]. *)
Lemma reset_game_human_X (rand_row rand_col : Z) (old : list GameContext) :
  0 <= rand_row <= 2 -> 0 <= rand_col <= 2 ->
  exists app,
    reset_game 0 rand_row rand_col old = Ok app /\
    in_play app /\ accept_user_input app = true /\
    ctx app = length old.
Proof.
  intros Hr Hc.
  assert (Hin : In (rand_row, rand_col) coordinates) by now apply in_coordinates_range.
  destruct (opening_facts _ Hin) as (Hpm & Hover & Hsc).
  destruct (after_move_play GameContext_init (rand_row, rand_col)
                            reachable_play_init eq_refl Hpm) as (Hup & Hrp & Ht).
  cbn [fst snd] in Hup.
  unfold reset_game. cbn [Player.of_int Z.eqb Player.eqb].
  rewrite (call_update_at
             {| ctxs := old ++ [GameContext_init];
                bot := MinimaxBot_init (Player.other Player.X) 8 |}
             (length old) _ _ _ _ _ (lookup_snoc old GameContext_init) Hup).
  cbn [ctxs bot]. rewrite insert_snoc.
  eexists. split; [reflexivity|]. split; [|split; reflexivity].
  exists (after_move GameContext_init (rand_row, rand_col)).
  cbn [world ctx user_player accept_user_input ctxs bot player MinimaxBot_init].
  split; [apply lookup_snoc|]. split; [exact Hrp|]. split; [reflexivity|].
  split; [exact Hsc|]. split; [|discriminate].
  intros _. split; [exact Hover | exact Ht].
Qed.

(** [reset_game] when the human draws [O]: the human opens. *)
Lemma reset_game_human_O (rand_row rand_col : Z) (old : list GameContext) :
  exists app,
    reset_game 1 rand_row rand_col old = Ok app /\
    in_play app /\ accept_user_input app = true /\
    ctx app = length old.
Proof.
  unfold reset_game. cbn [Player.of_int Z.eqb Player.eqb].
  eexists. split; [reflexivity|]. split; [|split; reflexivity].
  exists GameContext_init.
  cbn [world ctx user_player accept_user_input ctxs bot player MinimaxBot_init].
  split; [apply lookup_snoc|]. split; [apply reachable_play_init|].
  split; [reflexivity|].
  split; [change (0 <= score Player.X GameContext_init); rewrite score_init_X; lia|].
  split; [|discriminate]. intros _. split; reflexivity.
Qed.

(** A click on an application in play: it raises nothing and leaves an
    application in play; when it is accepted the human's mark is placed and,
    unless that ends the game, the bot's answer is placed too. *)
Lemma mouse_callback_in_play (fuel : nat) (row col : Z) (app : Application) :
  in_play app -> (10 <= fuel)%nat ->
  let app' := snd (mouse_callback fuel row col app) in
  fst (mouse_callback fuel row col app) = Ok tt /\
  in_play app' /\
  ctx app' = ctx app /\
  user_player app' = user_player app /\
  forall s, ctxs (world app) !! ctx app = Some s ->
    if in_range3 row && in_range3 col &&
       (accept_user_input app && is_empty_at (board s) (row, col))
    then
      let s1 := after_move s (row, col) in
      cell_at (board s1) row col = Some (Some (user_player app)) /\
      if fst (is_game_over s1)
      then ctxs (world app') !! ctx app = Some s1 /\ accept_user_input app' = false
      else
        exists m,
          first_maximal (fun mv => score (player (bot (world app))) (after_move s1 mv))
                        (possible_moves s1) m /\
          ctxs (world app') !! ctx app = Some (after_move s1 m) /\
          accept_user_input app' = negb (fst (is_game_over (after_move s1 m)))
    else app' = app.
Proof.
  intros Hplay Hfuel.
  pose proof Hplay as (s & Hl & Hrp & Hbot & Hsc & Hacc & Hnacc).
  cbn zeta. unfold mouse_callback.
  destruct (negb (in_range3 row) || negb (in_range3 col)) eqn:Hrange.
  { cbn [fst snd]. repeat (split; [auto|]). intros s0 _.
    apply orb_true_iff in Hrange.
    destruct Hrange as [H|H]; apply negb_true_iff in H; rewrite H;
      rewrite ?andb_false_r; reflexivity. }
  apply orb_false_iff in Hrange. destruct Hrange as [Hrow Hcol].
  apply negb_false_iff in Hrow, Hcol.
  rewrite Hl, Hrow, Hcol. cbn [andb].
  destruct (accept_user_input app && is_empty_at (board s) (row, col)) eqn:Hok.
  2: { cbn [fst snd]. repeat (split; [auto|]). intros s0 Hl0.
       rewrite ?Hl in Hl0. injection Hl0 as <-. now rewrite Hok. }
  apply andb_true_iff in Hok. destruct Hok as [Ha He].
  destruct (Hacc Ha) as [Hover Hturn].
  pose proof (reachable_consistent s (reachable_play_reachable s Hrp)) as Hs.
  assert (Hin : In (row, col) (possible_moves s)).
  { apply possible_moves_complete; [now apply in_range3_coordinates|].
    unfold is_empty_at in He. cbn [fst snd] in He.
    destruct (cell_at (board s) row col) as [[q|]|]; first [discriminate He | reflexivity]. }
  set (p := player (bot (world app))) in *.
  assert (Hturn_p : turn s <> p).
  { rewrite Hturn, Hbot. apply other_ne. }
  destruct (after_move_play s (row, col) Hrp Hover Hin) as (Hup & Hrp1 & Ht1).
  cbn [fst snd] in Hup.
  assert (Hcell : cell_at (board (after_move s (row, col))) row col
                  = Some (Some (user_player app))).
  { destruct (update_legal s row col (proj1 Hs) Hin) as (s' & Hup' & _ & _ & _ & _ & Hc & _).
    rewrite Hup in Hup'. injection Hup' as <-. now rewrite Hc, Hturn. }
  set (s1 := after_move s (row, col)) in *.
  pose proof (reachable_consistent s1 (reachable_play_reachable s1 Hrp1)) as Hs1.
  assert (Hsc1 : 0 <= score p s1).
  { pose proof (score_after_opponent_move p s (row, col) Hs Hover Hturn_p Hin).
    unfold s1. lia. }
  pose proof (lookup_lt_Some _ _ _ Hl) as Hlt.
  rewrite (play_round_eq fuel (ctx app) row col (world app) s s1 Hl Hup). cbn zeta.
  set (w1 := {| ctxs := <[ctx app := s1]> (ctxs (world app)); bot := bot (world app) |}).
  assert (Hl1 : ctxs w1 !! ctx app = Some s1).
  { unfold w1. cbn [ctxs]. now apply list_lookup_insert_eq. }
  destruct (fst (is_game_over s1)) eqn:Hover1.
  - cbn [fst snd ctx user_player]. split; [reflexivity|]. split; [|split; [|split]];
      [|reflexivity|reflexivity|].
    + exists s1. cbn [world ctx user_player accept_user_input].
      split; [exact Hl1|]. split; [exact Hrp1|]. split; [exact Hbot|].
      split; [exact Hsc1|]. split; [discriminate | intros _; exact Hover1].
    + intros s0 Hl0. rewrite ?Hl in Hl0. injection Hl0 as <-.
      rewrite Ha, He. cbn [andb]. fold s1. rewrite Hover1.
      cbn [world accept_user_input]. auto.
  - assert (Hf1 : (empty_cells (board s1) < fuel)%nat).
    { pose proof (empty_cells_le_9 _ (proj1 Hs1)). lia. }
    destruct (predict_move_result fuel s1 (ctx app) w1 Hs1 Hl1 Hover1 Hf1)
      as (m & w2 & Hpm & Hext & _ & Hin2 & Hmax & _).
    rewrite Hpm.
    assert (Hturn1 : turn s1 = p).
    { rewrite Ht1, Hturn. symmetry. exact Hbot. }
    specialize (Hmax Hturn1). change (player (bot w1)) with p in Hmax.
    pose proof (extends_lookup _ _ _ _ Hext Hl1) as Hl2.
    destruct (after_move_play s1 m Hrp1 Hover1 Hin2) as (Hup2 & Hrp2 & Ht2).
    set (s2 := after_move s1 m) in *.
    rewrite (call_update_at w2 (ctx app) s1 s2 _ _ (Ok tt) Hl2 Hup2).
    cbn [ctxs].
    rewrite list_lookup_insert_eq by (apply (lookup_lt_Some _ _ _ Hl2)).
    cbn [fst snd ctx user_player]. split; [reflexivity|].
    assert (Hl3 : <[ctx app := s2]> (ctxs w2) !! ctx app = Some s2).
    { apply list_lookup_insert_eq, (lookup_lt_Some _ _ _ Hl2). }
    split; [|split; [|split]]; [|reflexivity|reflexivity|].
    + exists s2. cbn [world ctx user_player accept_user_input ctxs bot].
      split; [exact Hl3|]. split; [exact Hrp2|].
      assert (Hp2 : player (bot w2) = p) by apply Hext.
      rewrite Hp2.
      split; [exact Hbot|].
      split; [unfold s2; rewrite (score_after_best_move p s1 m Hs1 Hover1 Hturn1 Hmax);
              exact Hsc1|].
      split.
      * intros Hn. apply negb_true_iff in Hn. split; [exact Hn|].
        rewrite Ht2, Ht1, other_involutive. exact Hturn.
      * intros Hn. now apply negb_false_iff in Hn.
    + intros s0 Hl0. rewrite ?Hl in Hl0. injection Hl0 as <-.
      rewrite Ha, He. cbn [andb]. fold s1. rewrite Hover1.
      split; [exact Hcell|]. exists m. fold s2.
      cbn [world accept_user_input ctxs]. auto.
Qed.

Lemma in_play_lost_never (app : Application) (s : GameContext) (w : Player) :
  in_play app -> ctxs (world app) !! ctx app = Some s ->
  is_game_over s = (true, Some w) ->
  w = player (bot (world app)) /\ w <> user_player app.
Proof.
  intros (s0 & Hl0 & Hrp & Hbot & Hsc & _) Hl Hov.
  rewrite Hl in Hl0. injection Hl0 as <-.
  pose proof (reachable_consistent s (reachable_play_reachable s Hrp)) as Hs.
  rewrite (score_equation _ s Hs), Hov in Hsc.
  destruct (Player.eqb w (player (bot (world app)))) eqn:E; [|lia].
  apply Player_eqb_eq in E. split; [exact E|].
  rewrite E, Hbot. intros H. symmetry in H. exact (other_ne _ H).
Qed.

Lemma reset_game_Ok_in_play (rand_player rand_row rand_col : Z)
      (old : list GameContext) (app : Application) :
  draws_in_range rand_player rand_row rand_col ->
  reset_game rand_player rand_row rand_col old = Ok app ->
  in_play app.
Proof.
  intros (Hp & Hr & Hc) Hreset.
  assert (Hp' : rand_player = 0 \/ rand_player = 1) by lia.
  destruct Hp' as [-> | ->].
  - destruct (reset_game_human_X rand_row rand_col old Hr Hc) as (app0 & H0 & Hplay & _).
    rewrite Hreset in H0. now injection H0 as <-.
  - destruct (reset_game_human_O rand_row rand_col old) as (app0 & H0 & Hplay & _).
    rewrite Hreset in H0. now injection H0 as <-.
Qed.

Lemma session_in_play (fuel : nat) (app : Application) :
  (10 <= fuel)%nat -> session fuel app -> in_play app.
Proof.
  intros Hfuel. induction 1 as [rp rr rc app Hd Hreset
                               |app row col _ IH
                               |app rp rr rc app' _ _ Hd Hreset].
  - apply (reset_game_Ok_in_play rp rr rc [] app Hd Hreset).
  - apply (mouse_callback_in_play fuel row col app IH Hfuel).
  - apply (reset_game_Ok_in_play rp rr rc (ctxs (world app)) app' Hd Hreset).
Qed.

(** [reset_game] always succeeds on draws [randint] can make and starts a
    game in play: the new context is a state of play on which the game is
    not over, the bot holds the mark the human does not, it is the human's
    turn, input is accepted, and the position is not lost for the bot. *)
Theorem reset_game_starts_play (rand_player rand_row rand_col : Z)
        (old : list GameContext) :
  draws_in_range rand_player rand_row rand_col ->
  exists app,
    reset_game rand_player rand_row rand_col old = Ok app /\
    in_play app /\ accept_user_input app = true /\
    ctx app = length old.
Proof.
  intros (Hp & Hr & Hc).
  assert (Hp' : rand_player = 0 \/ rand_player = 1) by lia.
  destruct Hp' as [-> | ->].
  - apply reset_game_human_X; assumption.
  - apply reset_game_human_O.
Qed.

(** The theorem for a human drawn as [X] and the opening move [(1, 1)]. *)
Lemma reset_game_starts_play_witness :
  exists app, reset_game 0 1 1 [] = Ok app /\ in_play app.
Proof.
  destruct (reset_game_starts_play 0 1 1 []) as (app & Hreset & Hplay & _).
  - unfold draws_in_range. lia.
  - exists app. auto.
Defined.

(** A click on an application in play never raises and leaves an
    application in play, with the same context object and the same player
    for the human: the context stays a state of play (marks on empty cells
    only, the players in turn, nothing after the end), and input stays
    accepted exactly while the game is on and it is the human's turn. *)
Theorem mouse_callback_keeps_play (fuel : nat) (row col : Z) (app : Application) :
  in_play app -> (10 <= fuel)%nat ->
  fst (mouse_callback fuel row col app) = Ok tt /\
  in_play (snd (mouse_callback fuel row col app)) /\
  ctx (snd (mouse_callback fuel row col app)) = ctx app /\
  user_player (snd (mouse_callback fuel row col app)) = user_player app.
Proof.
  intros Hplay Hfuel.
  destruct (mouse_callback_in_play fuel row col app Hplay Hfuel)
    as (H1 & H2 & H3 & H4 & _).
  auto.
Qed.

Lemma in_play_example :
  in_play {| world := {| ctxs := [ {| moves := 5;
                                      board := [[O_;X_;O_];[X_;O_;__];[__;__;__]];
                                      turn := Player.X |} ];
                         bot := MinimaxBot_init Player.O 8 |};
             ctx := 0%nat; user_player := Player.X; accept_user_input := true |}.
Proof.
  eexists. split; [reflexivity|]. split.
  - apply (run_game_reachable [(0,0);(0,1);(0,2);(1,0);(1,1)] GameContext_init).
    + apply reachable_play_init.
    + reflexivity.
  - split; [reflexivity|]. split; [vm_compute; discriminate|].
    split; [intros _; split; reflexivity | discriminate].
Qed.

(** The theorem for a click on [(2, 0)] in a game with five moves made. *)
Lemma mouse_callback_keeps_play_witness :
  let app := {| world := {| ctxs := [ {| moves := 5;
                                         board := [[O_;X_;O_];[X_;O_;__];[__;__;__]];
                                         turn := Player.X |} ];
                            bot := MinimaxBot_init Player.O 8 |};
                ctx := 0%nat; user_player := Player.X; accept_user_input := true |} in
  fst (mouse_callback 10 2 0 app) = Ok tt /\
  in_play (snd (mouse_callback 10 2 0 app)).
Proof.
  cbn zeta.
  destruct (mouse_callback_keeps_play 10 2 0 _ in_play_example) as (H1 & H2 & _).
  - lia.
  - split; [exact H1 | exact H2].
Defined.

(** An accepted click (a cell of the board that is empty, while input is
    accepted) places the human's mark on the cell; if that ends the game,
    input is frozen; otherwise the bot answers with the first legal move of
    maximal minimax score, and input stays accepted unless the answer ends
    the game. *)
Theorem mouse_callback_accepted (fuel : nat) (row col : Z) (app : Application)
        (s : GameContext) :
  in_play app -> (10 <= fuel)%nat ->
  ctxs (world app) !! ctx app = Some s ->
  in_range3 row = true -> in_range3 col = true ->
  accept_user_input app = true ->
  is_empty_at (board s) (row, col) = true ->
  let app' := snd (mouse_callback fuel row col app) in
  let s1 := after_move s (row, col) in
  cell_at (board s1) row col = Some (Some (user_player app)) /\
  if fst (is_game_over s1)
  then ctxs (world app') !! ctx app = Some s1 /\ accept_user_input app' = false
  else
    exists m,
      first_maximal (fun mv => score (player (bot (world app))) (after_move s1 mv))
                    (possible_moves s1) m /\
      ctxs (world app') !! ctx app = Some (after_move s1 m) /\
      accept_user_input app' = negb (fst (is_game_over (after_move s1 m))).
Proof.
  intros Hplay Hfuel Hl Hrow Hcol Ha He.
  destruct (mouse_callback_in_play fuel row col app Hplay Hfuel)
    as (_ & _ & _ & _ & H).
  specialize (H s Hl). rewrite Hrow, Hcol, Ha, He in H. exact H.
Qed.

(** The theorem for the click on [(2, 0)]: the human's [X] is there. *)
Lemma mouse_callback_accepted_witness :
  let s := {| moves := 5; board := [[O_;X_;O_];[X_;O_;__];[__;__;__]];
              turn := Player.X |} in
  cell_at (board (after_move s (2, 0))) 2 0 = Some X_.
Proof.
  cbn zeta.
  destruct (mouse_callback_accepted 10 2 0 _
              {| moves := 5; board := [[O_;X_;O_];[X_;O_;__];[__;__;__]];
                 turn := Player.X |} in_play_example) as [H _].
  - lia.
  - reflexivity.
  - reflexivity.
  - reflexivity.
  - reflexivity.
  - reflexivity.
  - exact H.
Defined.

(** Once the game is over, clicks change nothing: on an application in play
    whose context is over, [mouse_callback] returns the application as it
    was, wherever the click lands. *)
Theorem mouse_callback_game_over (fuel : nat) (row col : Z) (app : Application)
        (s : GameContext) :
  in_play app ->
  ctxs (world app) !! ctx app = Some s ->
  fst (is_game_over s) = true ->
  mouse_callback fuel row col app = (Ok tt, app).
Proof.
  intros (s0 & Hl0 & _ & _ & _ & Hacc & _) Hl Hover.
  rewrite Hl in Hl0. injection Hl0 as <-.
  unfold mouse_callback.
  destruct (negb (in_range3 row) || negb (in_range3 col)); [reflexivity|].
  rewrite Hl.
  destruct (accept_user_input app) eqn:Ha; [|reflexivity].
  destruct (Hacc eq_refl) as [Hno _]. rewrite Hno in Hover. discriminate.
Qed.

Lemma in_play_over_example :
  in_play {| world := {| ctxs := [ {| moves := 7;
                                      board := [[O_;X_;O_];[X_;O_;__];[X_;__;O_]];
                                      turn := Player.X |} ];
                         bot := MinimaxBot_init Player.O 8 |};
             ctx := 0%nat; user_player := Player.X; accept_user_input := false |}.
Proof.
  eexists. split; [reflexivity|]. split.
  - apply (run_game_reachable [(0,0);(0,1);(0,2);(1,0);(1,1);(2,0);(2,2)]
                              GameContext_init).
    + apply reachable_play_init.
    + reflexivity.
  - split; [reflexivity|]. split; [vm_compute; discriminate|].
    split; [discriminate | intros _; reflexivity].
Qed.

(** The theorem for a click on the empty cell [(1, 2)] after [O] has won. *)
Lemma mouse_callback_game_over_witness :
  let app := {| world := {| ctxs := [ {| moves := 7;
                                         board := [[O_;X_;O_];[X_;O_;__];[X_;__;O_]];
                                         turn := Player.X |} ];
                            bot := MinimaxBot_init Player.O 8 |};
                ctx := 0%nat; user_player := Player.X; accept_user_input := false |} in
  mouse_callback 10 1 2 app = (Ok tt, app).
Proof.
  cbn zeta.
  apply (mouse_callback_game_over 10 1 2 _
           {| moves := 7; board := [[O_;X_;O_];[X_;O_;__];[X_;__;O_]];
              turn := Player.X |} in_play_over_example).
  - reflexivity.
  - reflexivity.
Defined.

(** The human never wins.  In every application a session reaches, from the
    start-up [reset_game] through any clicks and resets, the context is a
    state of play, and when [is_game_over] reports a winner it is the
    bot's player, not the human's. *)
Theorem bot_never_loses (fuel : nat) (app : Application) (s : GameContext) :
  (10 <= fuel)%nat -> session fuel app ->
  ctxs (world app) !! ctx app = Some s ->
  reachable_play s /\
  forall w, is_game_over s = (true, Some w) ->
            w = player (bot (world app)) /\ w <> user_player app.
Proof.
  intros Hfuel Hsession Hl.
  pose proof (session_in_play fuel app Hfuel Hsession) as Hplay.
  split.
  - destruct Hplay as (s0 & Hl0 & Hrp & _).
    rewrite Hl in Hl0. now injection Hl0 as <-.
  - intros w Hov. exact (in_play_lost_never app s w Hplay Hl Hov).
Qed.

(** The theorem for a session in which the human, drawn as [O], clicks
    [(1, 1)] and then [(0, 0)]. *)
Lemma bot_never_loses_witness :
  exists app s,
    session 10 app /\ ctxs (world app) !! ctx app = Some s /\ reachable_play s.
Proof.
  destruct (reset_game_human_O 0 0 []) as (app0 & Hreset & Hplay0 & _).
  assert (Hs0 : session 10 app0).
  { apply (session_start 10 1 0 0); [unfold draws_in_range; lia | exact Hreset]. }
  pose proof (session_click 10 _ 1 1 Hs0) as Hs1.
  pose proof (session_click 10 _ 0 0 Hs1) as Hs2.
  destruct (session_in_play 10 _ (le_n 10) Hs2) as (s & Hl & _).
  eexists. exists s. split; [exact Hs2|]. split; [exact Hl|].
  apply (bot_never_loses 10 _ s (le_n 10) Hs2 Hl).
Defined.
